(** * On-axis field of a bifilar coil pair: a model of [Bifilar-Coil Placement.py]

    The program evaluates, on a grid of axial positions, the field of two
    matched current loops centred at [-spacing/2] and [+spacing/2].  Its two
    functions, [bz_from_loop] and [total_bz], the grid [z] of the script and
    the sliders of its window are embedded here.

    Numbers.  The two functions are modelled twice.

    In the first model the parameters and the grid hold finite
    floating-point numbers, read as real numbers.  Every arithmetic operation
    of the program returns the exact real result passed through a rounding
    function, the usual model of floating-point arithmetic; the operations
    that leave the finite numbers (a division by zero, a non-integer power of
    a negative number) return [None], which stands for the non-finite results
    (an infinity or a NaN).  The only operation the program applies to a
    quotient is an addition, and a sum with a non-finite operand is
    non-finite again, so one value for all of them is enough.  The rounding
    is a parameter.  Four arithmetics appear: an arbitrary one (with the
    hypotheses a proof needs stated where it needs them); exact arithmetic
    (the rounding is the identity), in which the formulas of the
    specification are read; rounding to nearest with 53 significant bits and
    an unbounded exponent; and the same with gradual underflow, which is
    binary64 wherever no result overflows.  A rounding function cannot
    overflow, so this model has no overflow, and with it none of the
    [OverflowError]s of Python; a zero has no sign in it.

    In the second model, [F64], the numbers are the binary64 floats
    themselves, with their subnormal numbers, infinities and NaN, and an
    operation of Python that raises does so.  It runs the program on given
    inputs. *)

From Stdlib Require Import Reals Lra Lia List ZArith.
From Stdlib Require Floats.
Import ListNotations.
Open Scope R_scope.

(** The program calls the loop radius [R]; the type of real numbers is written
    [real] wherever that name is bound. *)
Abbreviation real := R (only parsing).

(** ** Arithmetic *)

(** [rnd] rounds the result of [+], [-], [*] and [/], and the literals;
    [rnd_pow] is the rounding of the power routine behind [**]. *)
Class Arith := {
  rnd : R -> R;
  rnd_pow : R -> R
}.

(** Arithmetic without rounding error. *)
Definition exact_arith : Arith := {| rnd := fun x => x; rnd_pow := fun x => x |}.

(** ** Rounding to nearest in a binary format

    Rounding to [p] significant bits, ties to even, with no bound on the
    exponent: binary64 is [p = 53], away from overflow and from the
    subnormal numbers. *)

(** The integer nearest to [m], the even one of the two at a tie. *)
Definition nearest_even (m : R) : Z :=
  let f := Int_part m in
  if Rlt_dec (m - IZR f) (1 / 2) then f
  else if Rlt_dec (1 / 2) (m - IZR f) then (f + 1)%Z
  else if Z.even f then f else (f + 1)%Z.

(** floor(log2 |x|). *)
Definition exponent (x : R) : Z := Int_part (ln (Rabs x) / ln 2).

(** [x] scaled to a [p]-bit integer, rounded, and scaled back. *)
Definition round_binary (p : Z) (x : R) : R :=
  if Req_dec_T x 0 then 0
  else
    let e := (exponent x - (p - 1))%Z in
    IZR (nearest_even (x * powerRZ 2 (- e))) * powerRZ 2 e.

(** Arithmetic that rounds every result to 53 bits (the power routine is
    taken to round correctly). *)
Definition binary64 : Arith :=
  {| rnd := round_binary 53; rnd_pow := round_binary 53 |}.

(** Rounding to [p] bits with gradual underflow: the exponent of the last bit
    does not go below [emin], so that below 2^(emin + p - 1) the floats are
    the multiples of 2^emin, the subnormal numbers. *)
Definition round_gradual (p emin : Z) (x : R) : R :=
  if Req_dec_T x 0 then 0
  else
    let e := Z.max (exponent x - (p - 1)) emin in
    IZR (nearest_even (x * powerRZ 2 (- e))) * powerRZ 2 e.

(** binary64 with its subnormal numbers, short of overflow: 53 bits, the
    smallest positive number 2^-1074, the smallest normal one 2^-1022 (the
    power routine is again taken to round correctly). *)
Definition binary64_gradual : Arith :=
  {| rnd := round_gradual 53 (- 1074); rnd_pow := round_gradual 53 (- 1074) |}.


(** A float: a finite real number, or [None] for a non-finite one. *)
Definition value := option R.

Definition fin (x : R) : value := Some x.

Section Operations.
Context {fp : Arith}.

(** A literal (or a named constant such as [np.pi]): the float nearest to
    it. *)
Definition literal (x : R) : R := rnd x.

Definition lit (x : R) : value := fin (literal x).

Definition lift2 (f : R -> R -> R) (a b : value) : value :=
  match a, b with
  | Some x, Some y => Some (rnd (f x y))
  | _, _ => None
  end.

Definition add : value -> value -> value := lift2 Rplus.
Definition sub : value -> value -> value := lift2 Rminus.
Definition mul : value -> value -> value := lift2 Rmult.

(** numpy's true division: a zero divisor gives an infinity or a NaN (and a
    warning), never an exception.  (A non-finite divisor of the program can
    only be a NaN, and then so is the quotient.)  The one quotient of
    [bz_from_loop] has the array [z] in its divisor, so it is numpy's; a
    division between two Python floats would raise [ZeroDivisionError]
    instead. *)
Definition div (a b : value) : value :=
  match a, b with
  | Some x, Some y => if Req_dec_T y 0 then None else Some (rnd (x / y))
  | _, _ => None
  end.

(** Unary minus is exact. *)
Definition neg (a : value) : value := option_map Ropp a.

Definition is_integer (y : R) : Prop := IZR (Int_part y) = y.

Definition is_integer_dec (y : R) : {is_integer y} + {~ is_integer y} :=
  Req_dec_T (IZR (Int_part y)) y.

(** [x ** y] for a float exponent [y] (an integer exponent is converted to a
    float first): [x ** 0] is 1 for every [x]; a positive base goes through
    the power routine; [0 ** y] is 0 for [y > 0] and infinite for [y < 0]; a
    negative base has a real power only for an integer exponent; a non-finite
    base gives a non-finite power (for the exponents [y > 0] the program
    has).  The power of a Python float that overflows raises
    [OverflowError]; no result overflows here, and [F64.float_pow_2] has
    that case. *)
Definition power (a : value) (y : R) : value :=
  if Req_dec_T y 0 then Some 1
  else
    match a with
    | None => None
    | Some x =>
        if Rlt_dec 0 x then Some (rnd_pow (Rpower x y))
        else if Req_dec_T x 0 then (if Rlt_dec 0 y then Some 0 else None)
        else if is_integer_dec y then Some (rnd_pow (powerRZ x (Int_part y)))
        else None
    end.

End Operations.

Declare Scope fp_scope.
Delimit Scope fp_scope with fp.
Bind Scope fp_scope with value.
Notation "a + b" := (add a b) : fp_scope.
Notation "a - b" := (sub a b) : fp_scope.
Notation "a * b" := (mul a b) : fp_scope.
Notation "a / b" := (div a b) : fp_scope.
Notation "- a" := (neg a) : fp_scope.
Notation "a ** y" := (power a y) (at level 30, right associativity) : fp_scope.

(** ** Python values and control *)

(** What a call does: it returns a value or raises an exception. *)
Inductive outcome (A : Type) : Type :=
| Returns (a : A)
| Raises.
Arguments Returns {A} a.
Arguments Raises {A}.

Definition bind {A B : Type} (m : outcome A) (k : A -> outcome B) : outcome B :=
  match m with
  | Returns a => k a
  | Raises => Raises
  end.

Notation "x <- m ;; k" := (bind m (fun x => k))
  (at level 61, m at next level, right associativity).

(** The [turns] argument is an [int] (the initial value 10) or a [float] (the
    value of the slider). *)
Inductive number : Type :=
| Int (n : Z)
| Float (x : value).

(** Truncation toward zero. *)
Definition trunc (t : R) : Z :=
  if Rle_dec 0 t then Int_part t else (- Int_part (- t))%Z.

(** [int(x)]: the identity on an [int], truncation on a finite [float];
    [int] of an infinity or a NaN raises [OverflowError] or [ValueError]. *)
Definition py_int (x : number) : outcome Z :=
  match x with
  | Int n => Returns n
  | Float (Some t) => Returns (trunc t)
  | Float None => Raises
  end.

(** [range(n)]: [0, 1, ..., n-1], empty for [n <= 0]. *)
Definition range (n : Z) : list Z := map Z.of_nat (seq 0 (Z.to_nat n)).

(** ** The program *)

Section Program.
Context {fp : Arith}.

Local Open Scope fp_scope.

(** [np.pi]. *)
Definition np_pi : value := lit PI.

(** The divisor of [bz_from_loop]: [2 * ((R**2 + (z - z0)**2)**(1.5))]. *)
Definition loop_denominator (R z0 z : real) : value :=
  fin 2 * (fin R ** 2 + (fin z - fin z0) ** 2) ** 1.5.

(** [bz_from_loop(I, R, z0, z)] at a scalar [z]. *)
Definition bz_from_loop (I R z0 z : real) : value :=
  let mu_0 := fin 4 * np_pi * lit 1e-7 in
  (mu_0 * fin I * fin R ** 2) / loop_denominator R z0 z.

(** [bz_from_loop(I, R, z0, z)] at an array [z]: numpy broadcasts every
    operation over the array. *)
Definition bz_from_loop_array (I R z0 : real) (z : list real) : list value :=
  map (bz_from_loop I R z0) z.

(** [np.zeros_like(z_range)]. *)
Definition zeros_like (z_range : list R) : list value :=
  map (fun _ => fin 0) z_range.

(** [bz += x] on arrays. *)
Fixpoint iadd (bz x : list value) : list value :=
  match bz, x with
  | b :: bz', a :: x' => (b + a) :: iadd bz' x'
  | _, _ => []
  end.

(** [x / 2] on scalars: the divisor is not zero, the quotient is finite. *)
Definition half (x : real) : real := rnd (x / 2).

(** One pass of the loop body of [total_bz]; the loop variable [n] is not
    used. *)
Definition total_bz_body (z_range : list real) (spacing R I : real)
    (bz : list value) (n : Z) : list value :=
  let z1 := half (- spacing) in
  let z2 := half spacing in
  let bz := iadd bz (bz_from_loop_array I R z1 z_range) in
  iadd bz (bz_from_loop_array I R z2 z_range).

(** [total_bz(z_range, spacing, turns, R, I)]. *)
Definition total_bz (z_range : list real) (spacing : real) (turns : number)
    (R I : real) : outcome (list value) :=
  n <- py_int turns ;;
  Returns (fold_left (total_bz_body z_range spacing R I) (range n)
             (zeros_like z_range)).

(** What one grid point holds after [n] passes of the loop, [a] and [b]
    being the fields of the two coils at that point: [bz += a; bz += b],
    [n] times, from zero. *)
Definition accumulate (n : nat) (a b : value) : value :=
  Nat.iter n (fun acc => acc + a + b) (fin 0).

(** [np.linspace(start, stop, num)] on scalars, as numpy computes it:
    [arange(num) * step + start] with [step = (stop - start) / (num - 1)],
    the last sample set to [stop]; when the step rounds to zero the samples
    are divided first and multiplied after. *)
Definition linspace (start stop : real) (num : nat) : list real :=
  let div := (num - 1)%nat in
  let delta := rnd (stop - start)%R in
  let y := map INR (seq 0 num) in
  let y :=
    if (0 <? div)%nat then
      let step := rnd (delta / INR div)%R in
      if Req_dec_T step 0
      then map (fun i => rnd (rnd (i / INR div) * delta)%R) y
      else map (fun i => rnd (i * step)%R) y
    else map (fun i => rnd (i * delta)%R) y in
  let y := map (fun v => rnd (v + start)%R) y in
  if (1 <? num)%nat then removelast y ++ [stop] else y.

End Program.

(** The names the script binds at top level. *)
Module Script.
Section Script.
Context {fp : Arith}.

Definition init_spacing : real := literal 0.1.
Definition init_turns : number := Int 10.
Definition init_radius : real := literal 0.05.
Definition init_current : real := literal 1.0.

(** [z = np.linspace(-0.2, 0.2, 1000)]. *)
Definition z : list real := linspace (- literal 0.2) (literal 0.2) 1000.

(** [bz = total_bz(z, **params)], the curve first plotted. *)
Definition bz : outcome (list value) :=
  total_bz z init_spacing init_turns init_radius init_current.

End Script.
End Script.

(** ** The program on binary64 numbers

    The two functions once more, on the numbers the interpreter computes
    with: the binary64 floats, with their subnormal numbers, signed zeros,
    infinities and NaN.  [total_bz] is called with Python [float]s for the
    spacing, the radius and the current and a numpy array of floats for the
    grid, so in [bz_from_loop] the operations between scalars ([mu_0 * I],
    [R**2] and their product) are Python's and every operation that involves
    [z] is numpy's, element by element.  numpy signals overflow, a zero
    divisor and an invalid operation by a warning and an infinity or a NaN;
    of Python's operations here, [R**2] raises [OverflowError] when the
    square of a finite radius is too large to be a float, and [int] raises
    on an infinity or a NaN; products and the division by the literal [2] do
    not raise. *)

Module F64.
Import PrimFloat SpecFloat FloatOps.
#[local] Set Warnings "-inexact-float".
Local Open Scope float_scope.

(** The exceptions of the program. *)
Inductive exception : Type := OverflowError | ValueError.

Inductive outcome (A : Type) : Type :=
| Returns (a : A)
| Raises (e : exception).
Arguments Returns {A} a.
Arguments Raises {A} e.

Definition bind {A B : Type} (m : outcome A) (k : A -> outcome B) : outcome B :=
  match m with
  | Returns a => k a
  | Raises e => Raises e
  end.

Declare Scope outcome_scope.
Notation "x <- m ;; k" := (bind m (fun x => k))
  (at level 61, m at next level, right associativity) : outcome_scope.
Local Open Scope outcome_scope.

Definition is_finite (x : float) : bool :=
  negb (is_nan x || is_infinity x).

(** The square of a finite number is too large for a float. *)
Definition square_overflows (x : float) : bool :=
  is_finite x && is_infinity (x * x).

(** [x ** 2] on a Python [float]: the square, or [OverflowError] where it
    overflows; a square that underflows to zero is returned. *)
Definition float_pow_2 (x : float) : outcome float :=
  if square_overflows x then Raises OverflowError else Returns (x * x).

(** [x ** 2] on an element of an array: numpy computes the square. *)
Definition square (x : float) : float := x * x.

(** [x ** 1.5] on an element of an array, the power routine of the C library,
    taken to round correctly: the float nearest to the square root of the
    exact cube.  The routine gives 0 at a zero, [+inf] at an infinity and a
    NaN at a NaN or a negative finite number. *)
Definition pow_1_5 (x : float) : float :=
  match Prim2SF x with
  | S754_zero _ => 0
  | S754_infinity _ => infinity
  | S754_finite false m e =>
      SF2Prim (SFsqrt prec emax (S754_finite false (m * m * m) (3 * e)))
  | _ => nan
  end.

(** [np.pi]. *)
Definition np_pi : float := 3.141592653589793.

(** The divisor of [bz_from_loop] over the array [z]. *)
Definition loop_denominator (R z0 : float) (z : list float)
    : outcome (list float) :=
  r2 <- float_pow_2 R ;;
  Returns (map (fun zi => 2 * pow_1_5 (r2 + square (zi - z0))) z).

(** [bz_from_loop(I, R, z0, z)] for an array [z]; the dividend is evaluated
    first. *)
Definition bz_from_loop (I R z0 : float) (z : list float)
    : outcome (list float) :=
  let mu_0 := 4 * np_pi * 1e-7 in
  r2 <- float_pow_2 R ;;
  let dividend := mu_0 * I * r2 in
  divisor <- loop_denominator R z0 z ;;
  Returns (map (fun d => dividend / d) divisor).

Definition zeros_like (z_range : list float) : list float :=
  map (fun _ => 0) z_range.

Fixpoint iadd (bz x : list float) : list float :=
  match bz, x with
  | b :: bz', a :: x' => (b + a) :: iadd bz' x'
  | _, _ => []
  end.

Inductive number : Type :=
| Int (n : Z)
| Float (x : float).

(** [int(x)]: truncation toward zero of a finite float. *)
Definition py_int (x : number) : outcome Z :=
  match x with
  | Int n => Returns n
  | Float x =>
      match Prim2SF x with
      | S754_nan => Raises ValueError
      | S754_infinity _ => Raises OverflowError
      | S754_zero _ => Returns 0%Z
      | S754_finite s m e =>
          let a := match e with
                   | Zneg k => Z.shiftr (Zpos m) (Zpos k)
                   | _ => Z.shiftl (Zpos m) e
                   end in
          Returns (if s then (- a)%Z else a)
      end
  end.

(** The body of the loop of [total_bz]. *)
Definition total_bz_body (z_range : list float) (spacing R I : float)
    (bz : list float) (n : Z) : outcome (list float) :=
  let z1 := - spacing / 2 in
  let z2 := spacing / 2 in
  b1 <- bz_from_loop I R z1 z_range ;;
  let bz := iadd bz b1 in
  b2 <- bz_from_loop I R z2 z_range ;;
  Returns (iadd bz b2).

(** [for n in l: bz = body(bz, n)], stopped by the first exception. *)
Fixpoint for_each (l : list Z) (body : list float -> Z -> outcome (list float))
    (bz : list float) : outcome (list float) :=
  match l with
  | [] => Returns bz
  | n :: l' => bz' <- body bz n ;; for_each l' body bz'
  end.

(** [total_bz(z_range, spacing, turns, R, I)]. *)
Definition total_bz (z_range : list float) (spacing : float) (turns : number)
    (R I : float) : outcome (list float) :=
  let bz := zeros_like z_range in
  n <- py_int turns ;;
  for_each (range n) (total_bz_body z_range spacing R I) bz.

(** The initial parameters of the script. *)
Definition init_spacing : float := 0.1.
Definition init_turns : number := Int 10.
Definition init_radius : float := 0.05.
Definition init_current : float := 1.0.

(** An index of an array as a float. *)
Definition of_nat (i : nat) : float := of_uint63 (Uint63.of_Z (Z.of_nat i)).

(** [np.linspace(start, stop, num)], computed as in the model on real
    numbers above. *)
Definition linspace (start stop : float) (num : nat) : list float :=
  let div := (num - 1)%nat in
  let delta := stop - start in
  let y := map of_nat (seq 0 num) in
  let y :=
    if (0 <? div)%nat then
      let step := delta / of_nat div in
      if step =? 0
      then map (fun i => i / of_nat div * delta) y
      else map (fun i => i * step) y
    else map (fun i => i * delta) y in
  let y := map (fun v => v + start) y in
  if (1 <? num)%nat then removelast y ++ [stop] else y.

(** [z = np.linspace(-0.2, 0.2, 1000)]. *)
Definition z : list float := linspace (-0.2) 0.2 1000.

End F64.

(** ** The formulas of the specification *)

(** The vacuum permeability, 4 pi 10^-7. *)
Definition mu0 : R := 4 * PI * / 10 ^ 7.

(** [x^(3/2)] for [x >= 0], as the cube of the square root. *)
Definition pow_3_2 (x : R) : R := sqrt x ^ 3.

(** A quotient of real numbers, undefined when the divisor is zero. *)
Definition quotient (n d : R) : value :=
  if Req_dec_T d 0 then None else Some (n / d).

(** B(z) = (mu0 I R^2) / (2 (R^2 + (z - z0)^2)^(3/2)). *)
Definition axial_field (I R z0 z : real) : value :=
  quotient (mu0 * I * R ^ 2) (2 * pow_3_2 (R ^ 2 + (z - z0) ^ 2)).

(** [k] times a value. *)
Definition scale (k : R) (v : value) : value := option_map (Rmult k) v.

(** Two values agree within [eps]: both finite and at most [eps] apart, or
    both non-finite. *)
Definition within (eps : R) (v w : value) : Prop :=
  match v, w with
  | Some x, Some y => Rabs (x - y) <= eps
  | None, None => True
  | _, _ => False
  end.

(** The absolute value of a finite value (0 for a non-finite one). *)
Definition magnitude (v : value) : R :=
  match v with
  | Some x => Rabs x
  | None => 0
  end.

(** The relative error [k] passes of the loop, two rounded additions each,
    can build up when one rounding has relative error at most [u]. *)
Definition growth (u : R) (k : nat) : R := ((1 + u) ^ 2) ^ k - 1.


(** ** The interactive part of the script

    The sliders and the button are matplotlib widgets.  A [Slider] is modelled
    by what the script relies on: it holds a value between [valmin] and
    [valmax], snapped to the grid of [valstep] when there is one; [set_val]
    stores a value and calls the functions connected with [on_changed];
    [reset] calls [set_val] with the initial value when the value differs
    from it; a drag calls [set_val] with the value under the pointer, brought
    into bounds, when that differs from the value held.  All four sliders are
    connected to [update]. *)

(** The dictionary [params], with its four keys. *)
Module Params.
Record t : Type := {
  spacing : real;
  turns : number;
  R : real;
  I : real
}.
End Params.

Module Gui.
Section Gui.
Context {fp : Arith}.

Inductive control : Type := Spacing | Turns | Radius | Current.

Record slider : Type := {
  valmin : real;
  valmax : real;
  valstep : option real;
  valinit : real;
  val : real
}.

(** [Slider._stepped_value]:
    [valmin + round((val - valmin) / valstep) * valstep] when there is a
    step ([round] is Python's, to the nearest integer, ties to even; the
    step of the script is 1, not zero). *)
Definition stepped_value (lo : real) (step : option real) (x : real) : real :=
  match step with
  | Some h =>
      rnd (lo + rnd (IZR (nearest_even (rnd (rnd (x - lo) / h))) * h))
  | None => x
  end.

(** [Slider._value_in_bounds], for a slider closed at both ends. *)
Definition value_in_bounds (lo hi : real) (step : option real) (x : real)
    : real :=
  let v := stepped_value lo step x in
  if Rle_dec v lo then lo
  else if Rle_dec hi v then hi
  else v.

(** [Slider(ax, label, valmin, valmax, valinit=..., valstep=...)]. *)
Definition Slider (lo hi init : real) (step : option real) : slider :=
  let v := value_in_bounds lo hi step init in
  {| valmin := lo; valmax := hi; valstep := step; valinit := v; val := v |}.

Definition with_val (sl : slider) (v : real) : slider :=
  {| valmin := valmin sl; valmax := valmax sl; valstep := valstep sl;
     valinit := valinit sl; val := v |}.

(** What the script mutates: the four sliders, [params], the data of the
    plotted line, and the number of times [update] has run (each run ends
    with a request to redraw). *)
Record state : Type := {
  spacing_slider : slider;
  turns_slider : slider;
  radius_slider : slider;
  current_slider : slider;
  params : Params.t;
  ydata : list value;
  updates : nat
}.

Definition get (c : control) (st : state) : slider :=
  match c with
  | Spacing => spacing_slider st
  | Turns => turns_slider st
  | Radius => radius_slider st
  | Current => current_slider st
  end.

Definition put (c : control) (sl : slider) (st : state) : state :=
  match c with
  | Spacing =>
      {| spacing_slider := sl; turns_slider := turns_slider st;
         radius_slider := radius_slider st;
         current_slider := current_slider st;
         params := params st; ydata := ydata st; updates := updates st |}
  | Turns =>
      {| spacing_slider := spacing_slider st; turns_slider := sl;
         radius_slider := radius_slider st;
         current_slider := current_slider st;
         params := params st; ydata := ydata st; updates := updates st |}
  | Radius =>
      {| spacing_slider := spacing_slider st;
         turns_slider := turns_slider st; radius_slider := sl;
         current_slider := current_slider st;
         params := params st; ydata := ydata st; updates := updates st |}
  | Current =>
      {| spacing_slider := spacing_slider st;
         turns_slider := turns_slider st;
         radius_slider := radius_slider st; current_slider := sl;
         params := params st; ydata := ydata st; updates := updates st |}
  end.

(** The four sliders as the script creates them. *)
Definition initial_slider (c : control) : slider :=
  match c with
  | Spacing => Slider (literal 0.01) (literal 0.2) Script.init_spacing None
  | Turns => Slider 1 50 10 (Some 1)
  | Radius => Slider (literal 0.01) (literal 0.1) Script.init_radius None
  | Current => Slider (literal 0.1) 10 Script.init_current None
  end.

(** The state once the script has built the plot and the sliders. *)
Definition start : outcome state :=
  bz <- Script.bz ;;
  Returns
    {| spacing_slider := initial_slider Spacing;
       turns_slider := initial_slider Turns;
       radius_slider := initial_slider Radius;
       current_slider := initial_slider Current;
       params :=
         {| Params.spacing := Script.init_spacing;
            Params.turns := Script.init_turns;
            Params.R := Script.init_radius;
            Params.I := Script.init_current |};
       ydata := bz;
       updates := 0 |}.

(** [update(val)]: copy the values of the sliders into [params], recompute
    the curve, hand it to the line and ask for a redraw. *)
Definition update (st : state) : outcome state :=
  let p :=
    {| Params.spacing := val (spacing_slider st);
       Params.turns := Float (fin (val (turns_slider st)));
       Params.R := val (radius_slider st);
       Params.I := val (current_slider st) |} in
  new_bz <- total_bz Script.z (Params.spacing p) (Params.turns p)
              (Params.R p) (Params.I p) ;;
  Returns
    {| spacing_slider := spacing_slider st;
       turns_slider := turns_slider st;
       radius_slider := radius_slider st;
       current_slider := current_slider st;
       params := p; ydata := new_bz; updates := S (updates st) |}.

(** [Slider.set_val]. *)
Definition set_val (c : control) (v : real) (st : state) : outcome state :=
  update (put c (with_val (get c st) v) st).

(** [Slider.reset]. *)
Definition slider_reset (c : control) (st : state) : outcome state :=
  if Req_dec_T (val (get c st)) (valinit (get c st)) then Returns st
  else set_val c (valinit (get c st)) st.

(** [reset(event)]: the four sliders in turn. *)
Definition reset (st : state) : outcome state :=
  st <- slider_reset Spacing st ;;
  st <- slider_reset Turns st ;;
  st <- slider_reset Radius st ;;
  slider_reset Current st.

(** A drag of slider [c] to the position [x]. *)
Definition drag (c : control) (x : real) (st : state) : outcome state :=
  let sl := get c st in
  let v := value_in_bounds (valmin sl) (valmax sl) (valstep sl) x in
  if Req_dec_T v (val sl) then Returns st else set_val c v st.

(** What the user can do. *)
Inductive event : Type :=
| Drag (c : control) (x : real)
| Reset.

Definition handle (st : state) (e : event) : outcome state :=
  match e with
  | Drag c x => drag c x st
  | Reset => reset st
  end.

Fixpoint run (es : list event) (st : state) : outcome state :=
  match es with
  | [] => Returns st
  | e :: es' => st' <- handle st e ;; run es' st'
  end.

(** The number of sliders that are off their initial value. *)
Definition off_initial (st : state) : nat :=
  length (filter (fun c =>
                    if Req_dec_T (val (get c st)) (valinit (get c st))
                    then false else true)
            [Spacing; Turns; Radius; Current]).

(** The curve of the values the sliders show. *)
Definition shown (st : state) : outcome (list value) :=
  total_bz Script.z (val (spacing_slider st))
    (Float (fin (val (turns_slider st))))
    (val (radius_slider st)) (val (current_slider st)).

(** The plotted line and [params] agree with the sliders. *)
Definition consistent (st : state) : Prop :=
  shown st = Returns (ydata st) /\
  Params.spacing (params st) = val (spacing_slider st) /\
  py_int (Params.turns (params st)) =
    Returns (trunc (val (turns_slider st))) /\
  Params.R (params st) = val (radius_slider st) /\
  Params.I (params st) = val (current_slider st).

(** Every slider is the one the script created, at a value within its
    bounds. *)
Definition in_range (st : state) : Prop :=
  forall c : control,
    get c st = with_val (initial_slider c) (val (get c st)) /\
    (valmin (initial_slider c) <= val (get c st) <= valmax (initial_slider c))%R.

End Gui.
End Gui.

(** The tolerance within which the fields at [z] and [-z] agree after [n]
    passes. *)
Definition mirror_tolerance (u : R) (n : nat) (a b : value) : R :=
  2 * growth u n * INR n * (magnitude a + magnitude b).

(** ** The results that depend on the current *)

Section Results.
Context {fp : Arith}.
Local Open Scope fp_scope.




End Results.

(** * Properties of binary rounding *)

Lemma ln_2_pos : 0 < ln 2.
Proof. pose proof ln_lt_2. lra. Qed.




Lemma nearest_even_error (m : R) : Rabs (IZR (nearest_even m) - m) <= 1 / 2.
Proof.
  unfold nearest_even.
  destruct (base_Int_part m) as [H1 H2].
  set (f := Int_part m) in *.
  apply Rabs_le.
  destruct (Rlt_dec (m - IZR f) (1 / 2)); [lra|].
  destruct (Rlt_dec (1 / 2) (m - IZR f)); [rewrite plus_IZR; lra|].
  destruct (Z.even f); [lra | rewrite plus_IZR; lra].
Qed.

Lemma powerRZ_exponent_le (x : R) : x <> 0 -> powerRZ 2 (exponent x) <= Rabs x.
Proof.
  intros Hx.
  assert (Hax : 0 < Rabs x) by apply Rabs_pos_lt, Hx.
  rewrite powerRZ_Rpower by lra. unfold Rpower.
  apply Rle_trans with (exp (ln (Rabs x))); [|rewrite exp_ln; lra].
  destruct (base_Int_part (ln (Rabs x) / ln 2)) as [H1 _].
  fold (exponent x) in H1.
  pose proof ln_2_pos as H2.
  assert (H3 : IZR (exponent x) * ln 2 <= ln (Rabs x)).
  { replace (ln (Rabs x)) with (ln (Rabs x) / ln 2 * ln 2) by (field; lra).
    apply Rmult_le_compat_r; lra. }
  destruct H3 as [H3|H3].
  - left. now apply exp_increasing.
  - right. now rewrite H3.
Qed.

(** The relative error of a rounding is at most 2^-p. *)
Lemma round_binary_error (p : Z) (x : R) :
  Rabs (round_binary p x - x) <= powerRZ 2 (- p) * Rabs x.
Proof.
  unfold round_binary.
  destruct (Req_dec_T x 0) as [->|Hx].
  - rewrite Rminus_diag, Rabs_R0. lra.
  - set (e := (exponent x - (p - 1))%Z).
    assert (He : 0 < powerRZ 2 e) by (apply powerRZ_lt; lra).
    set (m := x * powerRZ 2 (- e)).
    assert (Hm : x = m * powerRZ 2 e).
    { unfold m. rewrite Rmult_assoc, <- powerRZ_add by lra.
      replace (- e + e)%Z with 0%Z by lia. simpl. ring. }
    replace (IZR (nearest_even m) * powerRZ 2 e - x)
      with ((IZR (nearest_even m) - m) * powerRZ 2 e)
      by (rewrite Hm at 1; ring).
    rewrite Rabs_mult, (Rabs_pos_eq (powerRZ 2 e)) by lra.
    pose proof (nearest_even_error m) as Hn.
    pose proof (powerRZ_exponent_le x Hx) as Hle.
    assert (Hsplit : powerRZ 2 e = 2 * (powerRZ 2 (- p) * powerRZ 2 (exponent x))).
    { unfold e.
      replace (exponent x - (p - 1))%Z with (1 + (- p + exponent x))%Z by lia.
      rewrite !powerRZ_add by lra. simpl (powerRZ 2 1). ring. }
    assert (Hp : 0 < powerRZ 2 (- p)) by (apply powerRZ_lt; lra).
    assert (H1 : Rabs (IZR (nearest_even m) - m) * powerRZ 2 e <= 1 / 2 * powerRZ 2 e)
      by (apply Rmult_le_compat_r; lra).
    assert (H2 : powerRZ 2 (- p) * powerRZ 2 (exponent x) <= powerRZ 2 (- p) * Rabs x)
      by (apply Rmult_le_compat_l; lra).
    lra.
Qed.

Lemma Int_part_opp_integer (m : R) :
  m = IZR (Int_part m) -> Int_part (- m) = (- Int_part m)%Z.
Proof.
  intros Hm. symmetry. apply Int_part_spec.
  rewrite opp_IZR. lra.
Qed.

Lemma Int_part_opp_fraction (m : R) :
  m <> IZR (Int_part m) -> Int_part (- m) = (- Int_part m - 1)%Z.
Proof.
  intros Hm. destruct (base_Int_part m) as [H1 H2].
  symmetry. apply Int_part_spec.
  rewrite minus_IZR, opp_IZR. lra.
Qed.

Lemma nearest_even_opp (m : R) : nearest_even (- m) = (- nearest_even m)%Z.
Proof.
  unfold nearest_even.
  destruct (base_Int_part m) as [H1 H2].
  destruct (Req_dec m (IZR (Int_part m))) as [E|E].
  - rewrite (Int_part_opp_integer m E), opp_IZR.
    destruct (Rlt_dec (- m - - IZR (Int_part m)) (1 / 2)) as [_|H]; [|lra].
    destruct (Rlt_dec (m - IZR (Int_part m)) (1 / 2)) as [_|H]; [|lra].
    reflexivity.
  - rewrite (Int_part_opp_fraction m E), minus_IZR, opp_IZR.
    set (f := Int_part m) in *.
    destruct (Rlt_dec (m - IZR f) (1 / 2)) as [L|L].
    + destruct (Rlt_dec (- m - (- IZR f - 1)) (1 / 2)) as [H|_]; [lra|].
      destruct (Rlt_dec (1 / 2) (- m - (- IZR f - 1))) as [_|H]; [lia|lra].
    + destruct (Rlt_dec (1 / 2) (m - IZR f)) as [G|G].
      * destruct (Rlt_dec (- m - (- IZR f - 1)) (1 / 2)) as [_|H]; [lia|lra].
      * destruct (Rlt_dec (- m - (- IZR f - 1)) (1 / 2)) as [H|_]; [lra|].
        destruct (Rlt_dec (1 / 2) (- m - (- IZR f - 1))) as [H|_]; [lra|].
        replace (- f - 1)%Z with (- (Z.succ f))%Z by lia.
        rewrite Z.even_opp, Z.even_succ, <- Z.negb_even.
        destruct (Z.even f); simpl; lia.
Qed.

(** Rounding to nearest, ties to even, is an odd function. *)
Lemma round_binary_opp (p : Z) (x : R) :
  round_binary p (- x) = - round_binary p x.
Proof.
  unfold round_binary.
  destruct (Req_dec_T x 0) as [->|Hx].
  - destruct (Req_dec_T (- 0) 0) as [_|H]; lra.
  - destruct (Req_dec_T (- x) 0) as [H|_]; [lra|].
    unfold exponent. rewrite Rabs_Ropp.
    rewrite Ropp_mult_distr_l_reverse, nearest_even_opp, opp_IZR. ring.
Qed.

(** ** Monotonicity and idempotence *)

Lemma Int_part_le (a b : R) : a <= b -> (Int_part a <= Int_part b)%Z.
Proof.
  intros Hab.
  destruct (base_Int_part a) as [Ha _]. destruct (base_Int_part b) as [_ Hb].
  assert (H : IZR (Int_part a) < IZR (Int_part b + 1))
    by (rewrite plus_IZR; lra).
  apply lt_IZR in H. lia.
Qed.

Lemma exponent_le (x y : R) : 0 < x -> x <= y -> (exponent x <= exponent y)%Z.
Proof.
  intros Hx Hxy. unfold exponent. apply Int_part_le.
  rewrite !Rabs_pos_eq by lra.
  pose proof ln_2_pos.
  apply Rmult_le_compat_r; [left; apply Rinv_0_lt_compat; lra|].
  destruct Hxy as [Hlt | ->]; [left; apply ln_increasing; lra | lra].
Qed.

Lemma powerRZ_exponent_lt (x : R) :
  x <> 0 -> Rabs x < powerRZ 2 (exponent x + 1).
Proof.
  intros Hx.
  assert (Hax : 0 < Rabs x) by apply Rabs_pos_lt, Hx.
  rewrite powerRZ_Rpower by lra. unfold Rpower.
  rewrite <- (exp_ln (Rabs x)) at 1 by exact Hax.
  apply exp_increasing.
  destruct (base_Int_part (ln (Rabs x) / ln 2)) as [_ H1].
  fold (exponent x) in H1.
  pose proof ln_2_pos as H2.
  rewrite plus_IZR.
  replace (ln (Rabs x)) with (ln (Rabs x) / ln 2 * ln 2) by (field; lra).
  apply Rmult_lt_compat_r; lra.
Qed.

(** The exponent is the only [k] with 2^k <= |x| < 2^(k+1). *)
Lemma exponent_unique (x : R) (k : Z) :
  powerRZ 2 k <= Rabs x < powerRZ 2 (k + 1) -> exponent x = k.
Proof.
  intros [H1 H2].
  assert (Hk : 0 < powerRZ 2 k) by (apply powerRZ_lt; lra).
  assert (Hax : 0 < Rabs x) by lra.
  unfold exponent. symmetry. apply Int_part_spec.
  pose proof ln_2_pos as Hl.
  rewrite !powerRZ_Rpower in * by lra. unfold Rpower in *.
  rewrite <- (exp_ln (Rabs x)) in H1, H2 by exact Hax.
  assert (L1 : IZR k * ln 2 <= ln (Rabs x)).
  { destruct H1 as [H1|H1]; [left; now apply exp_lt_inv|].
    right. now apply exp_inv. }
  apply exp_lt_inv in H2. rewrite plus_IZR in H2.
  assert (E : ln (Rabs x) / ln 2 * ln 2 = ln (Rabs x)) by (field; lra).
  set (q := ln (Rabs x) / ln 2) in *.
  rewrite <- E in L1, H2.
  apply Rmult_le_reg_r in L1; [|exact Hl].
  apply Rmult_lt_reg_r in H2; [|exact Hl].
  lra.
Qed.

Lemma nearest_even_IZR (k : Z) : nearest_even (IZR k) = k.
Proof.
  unfold nearest_even.
  rewrite <- (Int_part_spec (IZR k) k) by lra.
  destruct (Rlt_dec (IZR k - IZR k) (1 / 2)) as [_|H]; [reflexivity|lra].
Qed.

Lemma nearest_even_bounds (m : R) :
  (Int_part m <= nearest_even m <= Int_part m + 1)%Z.
Proof.
  unfold nearest_even.
  destruct (Rlt_dec _ _); [lia|].
  destruct (Rlt_dec _ _); [lia|].
  destruct (Z.even _); lia.
Qed.

(** Rounding to the nearest integer is monotone. *)
Lemma nearest_even_le (a b : R) :
  a <= b -> (nearest_even a <= nearest_even b)%Z.
Proof.
  intros Hab.
  pose proof (Int_part_le a b Hab) as Hf.
  pose proof (nearest_even_bounds a) as Ba.
  pose proof (nearest_even_bounds b) as Bb.
  destruct (Z.eq_dec (Int_part a) (Int_part b)) as [E|E]; [|lia].
  unfold nearest_even in *. rewrite E in *.
  set (f := Int_part b) in *.
  destruct (Rlt_dec (a - IZR f) (1 / 2)) as [A1|A1]; [lia|].
  destruct (Rlt_dec (b - IZR f) (1 / 2)) as [B1|B1]; [lra|].
  destruct (Rlt_dec (1 / 2) (a - IZR f)) as [A2|A2].
  - destruct (Rlt_dec (1 / 2) (b - IZR f)) as [B2|B2]; [lia|lra].
  - destruct (Rlt_dec (1 / 2) (b - IZR f)) as [B2|B2]; [|lia].
    destruct (Z.even f); lia.
Qed.

Lemma powerRZ_2_IZR (n : Z) : (0 <= n)%Z -> powerRZ 2 n = IZR (2 ^ n).
Proof.
  intros Hn. destruct n as [|q|q]; [reflexivity| |lia].
  cbn [powerRZ]. rewrite pow_IZR. now rewrite positive_nat_Z.
Qed.

Lemma powerRZ_2_le (n m : Z) : (n <= m)%Z -> powerRZ 2 n <= powerRZ 2 m.
Proof.
  intros Hnm.
  replace m with (n + (m - n))%Z by lia.
  rewrite powerRZ_add by lra.
  assert (Hn : 0 < powerRZ 2 n) by (apply powerRZ_lt; lra).
  assert (Hd : 1 <= powerRZ 2 (m - n)).
  { rewrite powerRZ_2_IZR by lia. apply IZR_le.
    assert (0 < 2 ^ (m - n))%Z by (apply Z.pow_pos_nonneg; lia). lia. }
  rewrite <- (Rmult_1_r (powerRZ 2 n)) at 1.
  apply Rmult_le_compat_l; lra.
Qed.

(** The scaled significand of a positive number lies in [2^(p-1), 2^p). *)
Lemma significand_range (p : Z) (x : R) :
  0 < x ->
  let e := (exponent x - (p - 1))%Z in
  powerRZ 2 (p - 1) <= x * powerRZ 2 (- e) < powerRZ 2 p.
Proof.
  intros Hx e.
  assert (Hx0 : x <> 0) by lra.
  pose proof (powerRZ_exponent_le x Hx0) as H1.
  pose proof (powerRZ_exponent_lt x Hx0) as H2.
  rewrite Rabs_pos_eq in H1, H2 by lra.
  assert (He : 0 < powerRZ 2 (- e)) by (apply powerRZ_lt; lra).
  assert (E1 : powerRZ 2 (p - 1) = powerRZ 2 (exponent x) * powerRZ 2 (- e)).
  { rewrite <- powerRZ_add by lra. f_equal. unfold e. lia. }
  assert (E2 : powerRZ 2 p = powerRZ 2 (exponent x + 1) * powerRZ 2 (- e)).
  { rewrite <- powerRZ_add by lra. f_equal. unfold e. lia. }
  rewrite E1, E2.
  split.
  - apply Rmult_le_compat_r; lra.
  - apply Rmult_lt_compat_r; lra.
Qed.

(** A positive number rounds into the closure of its binade. *)
Lemma round_binary_binade (p : Z) (x : R) :
  (1 <= p)%Z -> 0 < x ->
  let e := (exponent x - (p - 1))%Z in
  let n := nearest_even (x * powerRZ 2 (- e)) in
  round_binary p x = IZR n * powerRZ 2 e /\
  (2 ^ (p - 1) <= n <= 2 ^ p)%Z /\
  powerRZ 2 (exponent x) <= round_binary p x <= powerRZ 2 (exponent x + 1).
Proof.
  intros Hp Hx e n.
  assert (Hrb : round_binary p x = IZR n * powerRZ 2 e).
  { unfold round_binary. destruct (Req_dec_T x 0) as [H|_]; [lra|reflexivity]. }
  destruct (significand_range p x Hx) as [M1 M2]. fold e in M1, M2.
  rewrite (powerRZ_2_IZR (p - 1)) in M1 by lia.
  rewrite (powerRZ_2_IZR p) in M2 by lia.
  assert (N1 : (2 ^ (p - 1) <= n)%Z).
  { rewrite <- (nearest_even_IZR (2 ^ (p - 1))). now apply nearest_even_le. }
  assert (N2 : (n <= 2 ^ p)%Z).
  { rewrite <- (nearest_even_IZR (2 ^ p)). apply nearest_even_le. lra. }
  split; [exact Hrb|]. split; [lia|].
  rewrite Hrb.
  assert (He : 0 < powerRZ 2 e) by (apply powerRZ_lt; lra).
  assert (E1 : powerRZ 2 (exponent x) = IZR (2 ^ (p - 1)) * powerRZ 2 e).
  { rewrite <- powerRZ_2_IZR, <- powerRZ_add by (lra || lia).
    f_equal. unfold e. lia. }
  assert (E2 : powerRZ 2 (exponent x + 1) = IZR (2 ^ p) * powerRZ 2 e).
  { rewrite <- powerRZ_2_IZR, <- powerRZ_add by (lra || lia).
    f_equal. unfold e. lia. }
  rewrite E1, E2.
  split; apply Rmult_le_compat_r; try lra; apply IZR_le; lia.
Qed.

Lemma round_binary_0 (p : Z) : round_binary p 0 = 0.
Proof. unfold round_binary. destruct (Req_dec_T 0 0); [reflexivity|lra]. Qed.

Lemma round_binary_positive (p : Z) (x : R) :
  (1 <= p)%Z -> 0 < x -> 0 < round_binary p x.
Proof.
  intros Hp Hx.
  destruct (round_binary_binade p x Hp Hx) as (_ & _ & H & _).
  assert (0 < powerRZ 2 (exponent x)) by (apply powerRZ_lt; lra).
  lra.
Qed.

Lemma round_binary_le_pos (p : Z) (x y : R) :
  (1 <= p)%Z -> 0 < x -> x <= y -> round_binary p x <= round_binary p y.
Proof.
  intros Hp Hx Hxy.
  assert (Hy : 0 < y) by lra.
  destruct (round_binary_binade p x Hp Hx) as (Ex & _ & _ & Ux).
  destruct (round_binary_binade p y Hp Hy) as (Ey & _ & Ly & _).
  pose proof (exponent_le x y Hx Hxy) as He.
  destruct (Z.eq_dec (exponent x) (exponent y)) as [E|E].
  - rewrite Ex, Ey, E.
    set (e := (exponent y - (p - 1))%Z).
    assert (H2 : 0 < powerRZ 2 e) by (apply powerRZ_lt; lra).
    assert (H3 : 0 < powerRZ 2 (- e)) by (apply powerRZ_lt; lra).
    apply Rmult_le_compat_r; [lra|].
    apply IZR_le, nearest_even_le.
    apply Rmult_le_compat_r; lra.
  - pose proof (powerRZ_2_le (exponent x + 1) (exponent y) ltac:(lia)).
    lra.
Qed.

(** Rounding to nearest is monotone. *)
Lemma round_binary_le (p : Z) (x y : R) :
  (1 <= p)%Z -> x <= y -> round_binary p x <= round_binary p y.
Proof.
  intros Hp Hxy.
  destruct (Rlt_dec 0 x) as [Hx|Hx]; [now apply round_binary_le_pos|].
  assert (Hneg : forall t, t < 0 -> round_binary p t < 0).
  { intros t Ht.
    pose proof (round_binary_positive p (- t) Hp ltac:(lra)) as H.
    rewrite round_binary_opp in H. lra. }
  destruct (Req_dec x 0) as [->|Hx0].
  - rewrite round_binary_0.
    destruct Hxy as [Hy | <-]; [|rewrite round_binary_0; lra].
    left. now apply round_binary_positive.
  - assert (Hxn : x < 0) by lra.
    destruct (Rlt_dec y 0) as [Hy|Hy].
    + pose proof (round_binary_le_pos p (- y) (- x) Hp ltac:(lra) ltac:(lra))
        as H.
      rewrite !round_binary_opp in H. lra.
    + pose proof (Hneg x Hxn).
      destruct (Req_dec y 0) as [->|Hy0]; [rewrite round_binary_0; lra|].
      pose proof (round_binary_positive p y Hp ltac:(lra)). lra.
Qed.

(** An integer significand of at most [p] bits is not changed by rounding. *)
Lemma round_binary_significand (p : Z) (n e : Z) :
  (1 <= p)%Z -> (2 ^ (p - 1) <= n < 2 ^ p)%Z ->
  round_binary p (IZR n * powerRZ 2 e) = IZR n * powerRZ 2 e.
Proof.
  intros Hp Hn.
  assert (He : 0 < powerRZ 2 e) by (apply powerRZ_lt; lra).
  assert (Hlow : (0 < 2 ^ (p - 1))%Z) by (apply Z.pow_pos_nonneg; lia).
  assert (Hn0 : 0 < IZR n) by (apply IZR_lt; lia).
  set (y := IZR n * powerRZ 2 e).
  assert (Hy : 0 < y) by (apply Rmult_lt_0_compat; assumption).
  assert (Hexp : exponent y = (p - 1 + e)%Z).
  { apply exponent_unique. rewrite Rabs_pos_eq by lra.
    replace (p - 1 + e + 1)%Z with (p + e)%Z by lia.
    rewrite !powerRZ_add by lra.
    rewrite (powerRZ_2_IZR (p - 1)), (powerRZ_2_IZR p) by lia.
    unfold y. split.
    - apply Rmult_le_compat_r; [lra|]. apply IZR_le. lia.
    - apply Rmult_lt_compat_r; [lra|]. apply IZR_lt. lia. }
  unfold round_binary.
  destruct (Req_dec_T y 0) as [H|_]; [lra|].
  rewrite Hexp.
  replace (p - 1 + e - (p - 1))%Z with e by lia.
  replace (y * powerRZ 2 (- e)) with (IZR n).
  - now rewrite nearest_even_IZR.
  - unfold y. rewrite Rmult_assoc, <- powerRZ_add by lra.
    replace (e + - e)%Z with 0%Z by lia. simpl. ring.
Qed.

(** Rounding a float gives the float. *)
Lemma round_binary_idempotent (p : Z) (x : R) :
  (1 <= p)%Z -> round_binary p (round_binary p x) = round_binary p x.
Proof.
  intros Hp.
  assert (Hpos : forall t, 0 < t ->
            round_binary p (round_binary p t) = round_binary p t).
  { intros t Ht.
    destruct (round_binary_binade p t Hp Ht) as (E & [N1 N2] & _).
    rewrite E.
    set (e := (exponent t - (p - 1))%Z) in *.
    set (n := nearest_even (t * powerRZ 2 (- e))) in *.
    destruct (Z.eq_dec n (2 ^ p)) as [En|En].
    - rewrite En.
      replace (IZR (2 ^ p) * powerRZ 2 e)
        with (IZR (2 ^ (p - 1)) * powerRZ 2 (e + 1)).
      + apply round_binary_significand; [exact Hp|].
        assert ((0 < 2 ^ (p - 1))%Z) by (apply Z.pow_pos_nonneg; lia).
        assert (E2 : (2 ^ p = 2 * 2 ^ (p - 1))%Z)
          by (rewrite <- Z.pow_succ_r by lia; f_equal; lia).
        lia.
      + rewrite <- !powerRZ_2_IZR, <- !powerRZ_add by (lra || lia).
        f_equal. lia.
    - apply round_binary_significand; [exact Hp | lia]. }
  destruct (Rlt_dec 0 x) as [Hx|Hx]; [now apply Hpos|].
  destruct (Req_dec x 0) as [->|Hx0]; [now rewrite !round_binary_0|].
  specialize (Hpos (- x) ltac:(lra)).
  rewrite !round_binary_opp in Hpos. lra.
Qed.


(** ** Gradual underflow *)

Lemma exponent_ge (x : R) (k : Z) :
  powerRZ 2 k <= Rabs x -> (k <= exponent x)%Z.
Proof.
  intros Hk.
  assert (Hp : 0 < powerRZ 2 k) by (apply powerRZ_lt; lra).
  assert (Hx : x <> 0) by (intros ->; rewrite Rabs_R0 in Hk; lra).
  destruct (Z_le_gt_dec k (exponent x)) as [H|H]; [exact H|].
  pose proof (powerRZ_exponent_lt x Hx) as H1.
  pose proof (powerRZ_2_le (exponent x + 1) k ltac:(lia)) as H2.
  lra.
Qed.

(** In the normal range gradual underflow changes nothing. *)
Lemma round_gradual_normal (p emin : Z) (x : R) :
  powerRZ 2 (emin + (p - 1)) <= Rabs x ->
  round_gradual p emin x = round_binary p x.
Proof.
  intros Hx. apply exponent_ge in Hx.
  unfold round_gradual, round_binary.
  destruct (Req_dec_T x 0); [reflexivity|].
  now replace (Z.max (exponent x - (p - 1)) emin)
    with (exponent x - (p - 1))%Z by lia.
Qed.

Lemma round_gradual_0 (p emin : Z) : round_gradual p emin 0 = 0.
Proof. unfold round_gradual. destruct (Req_dec_T 0 0); [reflexivity|lra]. Qed.




Lemma round_gradual_1 : round_gradual 53 (- 1074) 1 = 1.
Proof.
  rewrite round_gradual_normal.
  - replace 1 with (IZR (2 ^ 52) * powerRZ 2 (- 52)) at 1 2.
    + apply round_binary_significand; lia.
    + rewrite <- powerRZ_2_IZR, <- powerRZ_add by (lra || lia). reflexivity.
  - rewrite Rabs_R1. change 1 with (powerRZ 2 0). apply powerRZ_2_le. lia.
Qed.

(** Below the normal range the last bit stays at [emin]. *)
Lemma round_gradual_subnormal (p emin : Z) (x : R) :
  Rabs x < powerRZ 2 (emin + (p - 1)) ->
  round_gradual p emin x =
  IZR (nearest_even (x * powerRZ 2 (- emin))) * powerRZ 2 emin.
Proof.
  intros Hx. unfold round_gradual.
  destruct (Req_dec_T x 0) as [->|Hx0].
  - rewrite Rmult_0_l.
    change 0 with (IZR 0) at 2. rewrite nearest_even_IZR. simpl. ring.
  - assert (He : (exponent x < emin + (p - 1))%Z).
    { destruct (Z_lt_ge_dec (exponent x) (emin + (p - 1))) as [H|H];
        [exact H|].
      pose proof (powerRZ_exponent_le x Hx0) as H1.
      pose proof (powerRZ_2_le (emin + (p - 1)) (exponent x) ltac:(lia)).
      lra. }
    now replace (Z.max (exponent x - (p - 1)) emin) with emin by lia.
Qed.

Lemma round_gradual_opp (p emin : Z) (x : R) :
  round_gradual p emin (- x) = - round_gradual p emin x.
Proof.
  unfold round_gradual.
  destruct (Req_dec_T x 0) as [->|Hx].
  - destruct (Req_dec_T (- 0) 0) as [_|H]; lra.
  - destruct (Req_dec_T (- x) 0) as [H|_]; [lra|].
    unfold exponent. rewrite Rabs_Ropp.
    rewrite Ropp_mult_distr_l_reverse, nearest_even_opp, opp_IZR. ring.
Qed.

(** A positive subnormal number rounds to a multiple of 2^emin that is at
    most the smallest normal number. *)
Lemma round_gradual_subnormal_range (p emin : Z) (x : R) :
  (1 <= p)%Z -> 0 <= x < powerRZ 2 (emin + (p - 1)) ->
  exists n : Z,
    round_gradual p emin x = IZR n * powerRZ 2 emin /\
    (0 <= n <= 2 ^ (p - 1))%Z.
Proof.
  intros Hp [Hx0 Hx].
  rewrite round_gradual_subnormal by (rewrite Rabs_pos_eq; lra).
  eexists. split; [reflexivity|].
  assert (He : 0 < powerRZ 2 (- emin)) by (apply powerRZ_lt; lra).
  split.
  - rewrite <- (nearest_even_IZR 0). apply nearest_even_le.
    apply Rmult_le_pos; lra.
  - rewrite <- (nearest_even_IZR (2 ^ (p - 1))). apply nearest_even_le.
    rewrite <- powerRZ_2_IZR by lia.
    replace (p - 1)%Z with ((emin + (p - 1)) + - emin)%Z at 1 by lia.
    rewrite powerRZ_add by lra.
    apply Rmult_le_compat_r; lra.
Qed.

(** A multiple of 2^emin with at most [p] bits is a float. *)
Lemma round_gradual_multiple (p emin : Z) (n : Z) :
  (1 <= p)%Z -> (0 <= n <= 2 ^ (p - 1))%Z ->
  round_gradual p emin (IZR n * powerRZ 2 emin) = IZR n * powerRZ 2 emin.
Proof.
  intros Hp Hn.
  assert (He : 0 < powerRZ 2 emin) by (apply powerRZ_lt; lra).
  destruct (Z.eq_dec n (2 ^ (p - 1))) as [->|Hne].
  - rewrite round_gradual_normal.
    + apply round_binary_significand; [exact Hp|].
      assert ((0 < 2 ^ (p - 1))%Z) by (apply Z.pow_pos_nonneg; lia).
      assert (E2 : (2 ^ p = 2 * 2 ^ (p - 1))%Z)
        by (rewrite <- Z.pow_succ_r by lia; f_equal; lia).
      lia.
    + rewrite <- powerRZ_2_IZR, <- powerRZ_add by (lra || lia).
      rewrite Rabs_pos_eq by (left; apply powerRZ_lt; lra).
      apply powerRZ_2_le. lia.
  - rewrite round_gradual_subnormal.
    + rewrite Rmult_assoc, <- powerRZ_add by lra.
      replace (emin + - emin)%Z with 0%Z by lia.
      simpl (powerRZ 2 0). now rewrite Rmult_1_r, nearest_even_IZR.
    + rewrite Rabs_pos_eq
        by (apply Rmult_le_pos; [apply IZR_le; lia | lra]).
      replace (emin + (p - 1))%Z with ((p - 1) + emin)%Z by lia.
      rewrite powerRZ_add by lra. rewrite (powerRZ_2_IZR (p - 1)) by lia.
      apply Rmult_lt_compat_r; [lra|]. apply IZR_lt. lia.
Qed.

Lemma round_gradual_idempotent (p emin : Z) (x : R) :
  (1 <= p)%Z ->
  round_gradual p emin (round_gradual p emin x) = round_gradual p emin x.
Proof.
  intros Hp.
  assert (Hpos : forall t, 0 <= t ->
            round_gradual p emin (round_gradual p emin t) =
            round_gradual p emin t).
  { intros t Ht.
    destruct (Rlt_dec t (powerRZ 2 (emin + (p - 1)))) as [Hs|Hn].
    - destruct (round_gradual_subnormal_range p emin t Hp (conj Ht Hs))
        as (n & -> & Hn).
      now apply round_gradual_multiple.
    - assert (Hlo : 0 < powerRZ 2 (emin + (p - 1)))
        by (apply powerRZ_lt; lra).
      assert (Ht' : powerRZ 2 (emin + (p - 1)) <= Rabs t)
        by (rewrite Rabs_pos_eq; lra).
      rewrite (round_gradual_normal p emin t Ht').
      destruct (round_binary_binade p t Hp ltac:(lra)) as (_ & _ & L & _).
      pose proof (exponent_ge t _ Ht') as He.
      pose proof (powerRZ_2_le _ _ He).
      rewrite round_gradual_normal
        by (rewrite Rabs_pos_eq; lra).
      now apply round_binary_idempotent. }
  destruct (Rle_dec 0 x) as [Hx|Hx]; [now apply Hpos|].
  specialize (Hpos (- x) ltac:(lra)).
  rewrite !round_gradual_opp in Hpos. lra.
Qed.

Lemma round_gradual_nonneg (p emin : Z) (x : R) :
  (1 <= p)%Z -> 0 <= x -> 0 <= round_gradual p emin x.
Proof.
  intros Hp Hx.
  assert (He : 0 < powerRZ 2 emin) by (apply powerRZ_lt; lra).
  destruct (Rlt_dec x (powerRZ 2 (emin + (p - 1)))) as [Hs|Hn].
  - destruct (round_gradual_subnormal_range p emin x Hp (conj Hx Hs))
      as (n & -> & Hn).
    apply Rmult_le_pos; [apply IZR_le; lia | lra].
  - assert (Hlo : 0 < powerRZ 2 (emin + (p - 1)))
      by (apply powerRZ_lt; lra).
    rewrite round_gradual_normal by (rewrite Rabs_pos_eq; lra).
    left. apply round_binary_positive; [exact Hp | lra].
Qed.

Lemma round_gradual_le_nonneg (p emin : Z) (x y : R) :
  (1 <= p)%Z -> 0 <= x -> x <= y ->
  round_gradual p emin x <= round_gradual p emin y.
Proof.
  intros Hp Hx Hxy.
  set (lo := powerRZ 2 (emin + (p - 1))).
  assert (Hlo : 0 < lo) by (apply powerRZ_lt; lra).
  assert (He : 0 < powerRZ 2 emin) by (apply powerRZ_lt; lra).
  assert (He' : 0 < powerRZ 2 (- emin)) by (apply powerRZ_lt; lra).
  destruct (Rlt_dec y lo) as [Hy|Hy].
  - rewrite !round_gradual_subnormal by (rewrite Rabs_pos_eq; fold lo; lra).
    apply Rmult_le_compat_r; [lra|].
    apply IZR_le, nearest_even_le, Rmult_le_compat_r; lra.
  - assert (Ly : lo <= round_gradual p emin y).
    { rewrite round_gradual_normal by (rewrite Rabs_pos_eq; fold lo; lra).
      destruct (round_binary_binade p y Hp ltac:(lra)) as (_ & _ & L & _).
      assert (Hy' : lo <= Rabs y) by (rewrite Rabs_pos_eq; lra).
      pose proof (powerRZ_2_le _ _ (exponent_ge y _ Hy')). fold lo in H. lra. }
    destruct (Rlt_dec x lo) as [Hxs|Hxn].
    + destruct (round_gradual_subnormal_range p emin x Hp (conj Hx Hxs))
        as (n & -> & Hn).
      apply Rle_trans with lo; [|exact Ly].
      unfold lo. replace (emin + (p - 1))%Z with ((p - 1) + emin)%Z by lia.
      rewrite powerRZ_add by lra. rewrite (powerRZ_2_IZR (p - 1)) by lia.
      apply Rmult_le_compat_r; [lra|]. apply IZR_le. lia.
    + rewrite !round_gradual_normal by (rewrite Rabs_pos_eq; fold lo; lra).
      apply round_binary_le; assumption.
Qed.

(** Rounding with gradual underflow is monotone. *)
Lemma round_gradual_le (p emin : Z) (x y : R) :
  (1 <= p)%Z -> x <= y -> round_gradual p emin x <= round_gradual p emin y.
Proof.
  intros Hp Hxy.
  destruct (Rle_dec 0 x) as [Hx|Hx]; [now apply round_gradual_le_nonneg|].
  destruct (Rle_dec 0 y) as [Hy|Hy].
  - pose proof (round_gradual_nonneg p emin (- x) Hp ltac:(lra)) as H1.
    pose proof (round_gradual_nonneg p emin y Hp Hy) as H2.
    rewrite round_gradual_opp in H1. lra.
  - pose proof (round_gradual_le_nonneg p emin (- y) (- x) Hp
                  ltac:(lra) ltac:(lra)) as H.
    rewrite !round_gradual_opp in H. lra.
Qed.

(** The powers of two from 2^emin on are floats. *)
Lemma round_gradual_pow2 (p emin k : Z) :
  (1 <= p)%Z -> (emin <= k)%Z ->
  round_gradual p emin (powerRZ 2 k) = powerRZ 2 k.
Proof.
  intros Hp Hk.
  destruct (Z_lt_ge_dec k (emin + (p - 1))) as [Hs|Hn].
  - replace (powerRZ 2 k) with (IZR (2 ^ (k - emin)) * powerRZ 2 emin).
    + apply round_gradual_multiple; [exact Hp|].
      split; [apply Z.pow_nonneg; lia|].
      apply Z.pow_le_mono_r; lia.
    + rewrite <- powerRZ_2_IZR, <- powerRZ_add by (lra || lia).
      f_equal. lia.
  - rewrite round_gradual_normal.
    + replace (powerRZ 2 k)
        with (IZR (2 ^ (p - 1)) * powerRZ 2 (k - (p - 1))).
      * apply round_binary_significand; [exact Hp|].
        assert ((0 < 2 ^ (p - 1))%Z) by (apply Z.pow_pos_nonneg; lia).
        assert (E2 : (2 ^ p = 2 * 2 ^ (p - 1))%Z)
          by (rewrite <- Z.pow_succ_r by lia; f_equal; lia).
        lia.
      * rewrite <- powerRZ_2_IZR, <- powerRZ_add by (lra || lia).
        f_equal. lia.
    + rewrite Rabs_pos_eq by (left; apply powerRZ_lt; lra).
      apply powerRZ_2_le. lia.
Qed.

(** * The loop, point by point (any rounding) *)

Section Pointwise.
Context {fp : Arith}.

Lemma iadd_map (g h : R -> value) (zs : list R) :
  iadd (map g zs) (map h zs) = map (fun z => add (g z) (h z)) zs.
Proof.
  induction zs as [|z zs IH]; simpl; [reflexivity|].
  now rewrite IH.
Qed.

Lemma total_bz_body_map (g : R -> value) (zs : list R) (s R I : real) (n : Z) :
  total_bz_body zs s R I (map g zs) n =
  map (fun z => add (add (g z) (bz_from_loop I R (half (- s)) z))
                    (bz_from_loop I R (half s) z)) zs.
Proof.
  unfold total_bz_body, bz_from_loop_array.
  now rewrite !iadd_map.
Qed.

Lemma fold_body_map (zs : list R) (s R I : real) (l : list Z) :
  forall g : real -> value,
  fold_left (total_bz_body zs s R I) l (map g zs) =
  map (fun z =>
         Nat.iter (length l)
           (fun acc => add (add acc (bz_from_loop I R (half (- s)) z))
                           (bz_from_loop I R (half s) z))
           (g z)) zs.
Proof.
  induction l as [|n l IH]; intros g; simpl.
  - reflexivity.
  - rewrite total_bz_body_map, IH.
    apply map_ext. intros z.
    exact (Nat.iter_swap (length l) _
             (fun acc => add (add acc (bz_from_loop I R (half (- s)) z))
                             (bz_from_loop I R (half s) z)) (g z)).
Qed.

Lemma length_range (n : Z) : length (range n) = Z.to_nat n.
Proof. unfold range. now rewrite length_map, length_seq. Qed.

(** [total_bz] raises exactly when [int(turns)] does, and otherwise returns,
    for each grid point, what that point accumulates over [int(turns)]
    passes. *)
Lemma total_bz_pointwise (zs : list R) (s : real) (t : number) (R I : real) :
  total_bz zs s t R I =
  n <- py_int t ;;
  Returns (map (fun z => accumulate (Z.to_nat n)
                           (bz_from_loop I R (half (- s)) z)
                           (bz_from_loop I R (half s) z)) zs).
Proof.
  unfold total_bz. destruct (py_int t) as [n|]; simpl; [|reflexivity].
  unfold zeros_like. rewrite fold_body_map, length_range.
  reflexivity.
Qed.

Lemma accumulate_nonfinite (n : nat) (a b : value) :
  a = None \/ b = None -> accumulate (S n) a b = None.
Proof.
  unfold accumulate. rewrite Nat.iter_succ.
  intros [-> | ->]; destruct (Nat.iter n _ _); try destruct a;
    try destruct b; reflexivity.
Qed.

Lemma trunc_unit_interval (t : R) : 0 <= t < 1 -> trunc t = 0%Z.
Proof.
  intros [H0 H1]. unfold trunc.
  destruct (Rle_dec 0 t) as [_|H]; [|lra].
  symmetry. apply Int_part_spec. lra.
Qed.

Lemma trunc_nonneg (t : R) : 0 <= t -> trunc t = Int_part t.
Proof.
  intros H0. unfold trunc.
  destruct (Rle_dec 0 t) as [_|H]; [reflexivity|lra].
Qed.

Lemma range_nonpos (n : Z) : (n <= 0)%Z -> range n = [].
Proof.
  intros Hn. unfold range. destruct n; [reflexivity | lia | reflexivity].
Qed.

(** Below zero [int] rounds up and the floor rounds down: both are at most
    zero there, and [range] is empty for both. *)
Lemma range_trunc (t : R) : range (trunc t) = range (Int_part t).
Proof.
  unfold trunc. destruct (Rle_dec 0 t) as [H|H]; [reflexivity|].
  assert (Ht : t < 0) by lra.
  destruct (base_Int_part t) as [Hf _].
  destruct (base_Int_part (- t)) as [_ Hc].
  assert (Hf' : (Int_part t <= 0)%Z) by (apply le_IZR; lra).
  assert (Hc' : (-1 < Int_part (- t))%Z) by (apply lt_IZR; lra).
  rewrite !range_nonpos by lia. reflexivity.
Qed.

(** The one exception [total_bz] can raise is that of [int(turns)], for a
    turn count that is an infinity or a NaN. *)
Remark total_bz_nonfinite_turns (zs : list real) (s R I : real) :
  total_bz zs s (Float None) R I = Raises.
Proof. reflexivity. Qed.

Lemma length_linspace (a b : real) (n : nat) :
  length (linspace a b n) = n.
Proof.
  unfold linspace.
  set (y := map (fun v => rnd (v + a)) _).
  assert (Hy : length y = n).
  { unfold y. rewrite length_map.
    destruct (0 <? n - 1)%nat; [destruct (Req_dec_T _ 0)|];
      now rewrite !length_map, length_seq. }
  destruct (1 <? n)%nat eqn:Hn; [|exact Hy].
  apply Nat.ltb_lt in Hn.
  rewrite length_app, removelast_firstn_len, length_firstn, Hy.
  cbn [length]. lia.
Qed.

(** The grid of the script has 1000 samples, and so has every curve. *)
Lemma length_curve (s : real) (t : number) (R I : real) (bz : list value) :
  total_bz Script.z s t R I = Returns bz -> length bz = 1000%nat.
Proof.
  rewrite total_bz_pointwise.
  destruct (py_int t) as [n|]; cbn [bind]; [|discriminate].
  intros [= <-]. rewrite length_map. apply length_linspace.
Qed.

(** C10.  A real turn count [t] acts as [int(t)], its truncation toward
    zero: the result is that of [int(t)] turns; for [0 <= t < 1] the loop
    does not run and the curve is all zeros; for [t > 1] the result is that
    of floor(t) turns.  This holds whatever the rounding is. *)
Theorem total_bz_truncates_turns (zs : list real) (s t R I : real) :
  total_bz zs s (Float (fin t)) R I = total_bz zs s (Int (trunc t)) R I /\
  (0 <= t < 1 ->
   total_bz zs s (Float (fin t)) R I = Returns (map (fun _ => fin 0) zs)) /\
  (1 < t ->
   trunc t = Int_part t /\
   total_bz zs s (Float (fin t)) R I = total_bz zs s (Int (Int_part t)) R I).
Proof.
  split; [reflexivity|]. split.
  - intros Ht. unfold total_bz. cbn [py_int fin bind].
    now rewrite (trunc_unit_interval t Ht).
  - intros Ht. split; [apply trunc_nonneg; lra|].
    unfold total_bz. cbn [py_int fin bind].
    now rewrite range_trunc.
Qed.

End Pointwise.

(** * Rounding error of the accumulation *)

Section RoundingError.
Context {fp : Arith}.
Variable u : R.
Hypothesis u_nonneg : 0 <= u.

(** The standard model: a rounding has relative error at most [u]. *)
Hypothesis rnd_error : forall x : R, Rabs (rnd x - x) <= u * Rabs x.

Lemma rnd_abs (x : R) : Rabs (rnd x) <= (1 + u) * Rabs x.
Proof.
  pose proof (rnd_error x) as H.
  replace (rnd x) with ((rnd x - x) + x) by ring.
  pose proof (Rabs_triang (rnd x - x) x). lra.
Qed.

(** One pass, [bz += x; bz += y], from [acc]. *)
Lemma pass_error (acc x y : R) :
  Rabs (rnd (rnd (acc + x) + y) - (acc + x + y)) <=
  ((1 + u) ^ 2 - 1) * (Rabs acc + Rabs x + Rabs y).
Proof.
  set (p := rnd (acc + x)).
  pose proof (rnd_error (acc + x)) as H1. fold p in H1.
  pose proof (rnd_error (p + y)) as H2.
  pose proof (rnd_abs (acc + x)) as H3. fold p in H3.
  pose proof (Rabs_triang acc x) as T1.
  pose proof (Rabs_triang p y) as T2.
  pose proof (Rabs_pos acc). pose proof (Rabs_pos x). pose proof (Rabs_pos y).
  pose proof (Rabs_pos p). pose proof (Rabs_pos (acc + x)).
  pose proof (Rabs_pos (p + y)).
  replace (rnd (p + y) - (acc + x + y))
    with ((rnd (p + y) - (p + y)) + (p - (acc + x))) by ring.
  eapply Rle_trans; [apply Rabs_triang|].
  assert (B1 : u * Rabs (acc + x) <= u * (Rabs acc + Rabs x))
    by (apply Rmult_le_compat_l; lra).
  assert (B2 : u * Rabs (p + y) <= u * (Rabs p + Rabs y))
    by (apply Rmult_le_compat_l; lra).
  assert (B3 : u * Rabs p <= u * ((1 + u) * (Rabs acc + Rabs x))).
  { apply Rmult_le_compat_l; [lra|].
    eapply Rle_trans; [exact H3|].
    apply Rmult_le_compat_l; lra. }
  assert (B4 : 0 <= u * u * Rabs y).
  { apply Rmult_le_pos; [apply Rmult_le_pos|]; lra. }
  assert (B5 : 0 <= u * Rabs y) by (apply Rmult_le_pos; lra).
  simpl. nra.
Qed.

Lemma growth_base : 1 <= (1 + u) ^ 2.
Proof. simpl. nra. Qed.

Lemma growth_power (k : nat) : 1 <= ((1 + u) ^ 2) ^ k.
Proof. apply pow_R1_Rle, growth_base. Qed.

(** After [k] passes the accumulated value is within relative error
    [growth u k] of [k (x + y)], measured against [k (|x| + |y|)]. *)
Lemma accumulate_error (k : nat) (x y : R) :
  exists v,
    accumulate k (fin x) (fin y) = fin v /\
    Rabs (v - INR k * (x + y)) <=
    growth u k * INR k * (Rabs x + Rabs y).
Proof.
  unfold accumulate, growth.
  induction k as [|k (v & Hv & IH)].
  - exists 0. split; [reflexivity|].
    simpl. replace (0 - 0 * (x + y)) with 0 by ring.
    rewrite Rabs_R0. lra.
  - rewrite Nat.iter_succ, Hv.
    cbn [add lift2 fin].
    eexists. split; [reflexivity|].
    set (q := (1 + u) ^ 2) in *. set (Q := q ^ k) in *.
    set (K := INR k) in *. set (S := Rabs x + Rabs y) in *.
    assert (Hq : 1 <= q) by apply growth_base.
    assert (HQ : 1 <= Q) by apply growth_power.
    assert (HK : 0 <= K) by apply pos_INR.
    assert (HS : 0 <= S)
      by (pose proof (Rabs_pos x); pose proof (Rabs_pos y); unfold S; lra).
    assert (Hsig : Rabs (x + y) <= S) by apply Rabs_triang.
    assert (HKS : 0 <= K * S) by (apply Rmult_le_pos; assumption).
    assert (Hv1 : Rabs v <= Q * (K * S)).
    { replace v with ((v - K * (x + y)) + K * (x + y)) at 1 by ring.
      eapply Rle_trans; [apply Rabs_triang|].
      rewrite (Rabs_mult K), (Rabs_pos_eq K HK).
      assert (K * Rabs (x + y) <= K * S)
        by (apply Rmult_le_compat_l; assumption).
      replace (Q * (K * S)) with ((Q - 1) * K * S + K * S) by ring.
      lra. }
    pose proof (pass_error v x y) as Hp.
    assert (Hp' : (q - 1) * (Rabs v + Rabs x + Rabs y) <=
                  (q - 1) * (Q * (K * S) + S)).
    { apply Rmult_le_compat_l; [lra|].
      assert (S = Rabs x + Rabs y) by reflexivity. lra. }
    assert (Hgap : 0 <= q * (Q - 1) * S).
    { apply Rmult_le_pos; [apply Rmult_le_pos|]; lra. }
    rewrite S_INR. fold K.
    replace (q ^ Datatypes.S k) with (q * Q) by reflexivity.
    replace (rnd (rnd (v + x) + y) - (K + 1) * (x + y))
      with ((rnd (rnd (v + x) + y) - (v + x + y)) + (v - K * (x + y)))
      by ring.
    eapply Rle_trans; [apply Rabs_triang|].
    replace ((q * Q - 1) * (K + 1) * S)
      with ((q - 1) * (Q * (K * S) + S) + (Q - 1) * K * S + q * (Q - 1) * S)
      by ring.
    fold q in Hp. lra.
Qed.


(** The two orders in which the fields of the coils can be added agree
    within twice the error bound. *)
Lemma accumulate_swap_tolerance (n : nat) (a b : value) :
  within (mirror_tolerance u n a b) (accumulate n a b) (accumulate n b a).
Proof.
  unfold mirror_tolerance.
  destruct n as [|n].
  { unfold accumulate. simpl. rewrite Rminus_diag, Rabs_R0. lra. }
  destruct a as [x|]; [destruct b as [y|]|].
  - destruct (accumulate_error (S n) x y) as (v & Hv & Ev).
    destruct (accumulate_error (S n) y x) as (w & Hw & Ew).
    change (Some x) with (fin x). change (Some y) with (fin y).
    rewrite Hv, Hw. cbn [within fin magnitude].
    replace (v - w)
      with ((v - INR (S n) * (x + y)) - (w - INR (S n) * (y + x))) by ring.
    eapply Rle_trans; [apply Rabs_triang|].
    rewrite Rabs_Ropp. lra.
  - rewrite (accumulate_nonfinite n (Some x) None) by now right.
    rewrite (accumulate_nonfinite n None (Some x)) by now left.
    exact I.
  - rewrite (accumulate_nonfinite n None b) by now left.
    rewrite (accumulate_nonfinite n b None) by now right.
    exact I.
Qed.

(** Rounding is an odd function, as rounding to nearest is. *)
Hypothesis rnd_odd : forall x : R, rnd (- x) = - rnd x.

Lemma half_opp (s : R) : half (- s) = - half s.
Proof.
  unfold half. rewrite <- rnd_odd. apply f_equal. lra.
Qed.

Lemma power_2_mirror (x : R) : power (fin (- x)) 2 = power (fin x) 2.
Proof.
  assert (H2 : Int_part 2 = 2%Z)
    by (symmetry; apply Int_part_spec; lra).
  assert (Hsq : forall y : R, 0 < y ->
            Rpower y 2 = powerRZ (- y) (Int_part 2)).
  { intros y Hy. rewrite H2.
    replace 2 with (INR 2) at 1 by (simpl; lra).
    rewrite Rpower_pow by exact Hy. simpl. ring. }
  unfold power, fin.
  destruct (Req_dec_T 2 0) as [H|_]; [lra|].
  destruct (Rlt_dec 0 x) as [Hx|Hx].
  - destruct (Rlt_dec 0 (- x)) as [H|_]; [lra|].
    destruct (Req_dec_T (- x) 0) as [H|_]; [lra|].
    destruct (is_integer_dec 2) as [_|Hn].
    + now rewrite (Hsq x Hx).
    + destruct Hn. unfold is_integer. now rewrite H2.
  - destruct (Req_dec_T x 0) as [->|Hx0].
    + rewrite Ropp_0.
      destruct (Rlt_dec 0 0) as [H|_]; [lra|].
      destruct (Req_dec_T 0 0) as [_|H]; [reflexivity|lra].
    + destruct (Rlt_dec 0 (- x)) as [_|H]; [|lra].
      destruct (is_integer_dec 2) as [_|Hn].
      * rewrite (Hsq (- x)) by lra. now rewrite Ropp_involutive.
      * destruct Hn. unfold is_integer. now rewrite H2.
Qed.

Lemma loop_denominator_mirror (R z0 z : real) :
  loop_denominator R (- z0) (- z) = loop_denominator R z0 z.
Proof.
  unfold loop_denominator.
  replace (sub (fin (- z)) (fin (- z0))) with (fin (- rnd (z - z0))).
  - now rewrite power_2_mirror.
  - cbn [sub lift2 fin]. rewrite <- rnd_odd. do 2 apply f_equal. lra.
Qed.

Lemma bz_from_loop_mirror (I R z0 z : real) :
  bz_from_loop I R (- z0) (- z) = bz_from_loop I R z0 z.
Proof.
  unfold bz_from_loop. now rewrite loop_denominator_mirror.
Qed.

(** Symmetry under rounding.  On the mirrored grid [total_bz] adds, at each
    point, the same two fields in the other order, so the two curves agree
    within [mirror_tolerance]; that they agree to the last bit does not
    follow once the loop runs more than once. *)
Lemma total_bz_even_rounded (zs : list real) (s : real) (n : Z) (R I : real) :
  exists f f' : real -> value,
    total_bz zs s (Int n) R I = Returns (map f zs) /\
    total_bz (map Ropp zs) s (Int n) R I = Returns (map f' zs) /\
    forall z : real,
      within (mirror_tolerance u (Z.to_nat n)
                (bz_from_loop I R (half (- s)) z)
                (bz_from_loop I R (half s) z))
             (f z) (f' z).
Proof.
  rewrite !total_bz_pointwise. cbn [py_int bind]. rewrite map_map.
  do 2 eexists. split; [reflexivity|]. split; [reflexivity|].
  intros z. cbv beta.
  assert (E1 : bz_from_loop I R (half (- s)) (- z) =
               bz_from_loop I R (half s) z)
    by (rewrite half_opp; apply bz_from_loop_mirror).
  assert (E2 : bz_from_loop I R (half s) (- z) =
               bz_from_loop I R (half (- s)) z).
  { rewrite half_opp.
    rewrite <- (Ropp_involutive (half s)) at 1.
    apply bz_from_loop_mirror. }
  rewrite E1, E2. apply accumulate_swap_tolerance.
Qed.

End RoundingError.

(** In 53-bit arithmetic the curve is symmetric within 2^-53-sized relative
    errors. *)
Corollary total_bz_even_binary64 (zs : list real) (s : real) (n : Z)
    (R I : real) :
  exists f f' : real -> value,
    total_bz (fp := binary64) zs s (Int n) R I = Returns (map f zs) /\
    total_bz (fp := binary64) (map Ropp zs) s (Int n) R I =
    Returns (map f' zs) /\
    forall z : real,
      within (mirror_tolerance (powerRZ 2 (- 53)) (Z.to_nat n)
                (bz_from_loop (fp := binary64) I R
                   (half (fp := binary64) (- s)) z)
                (bz_from_loop (fp := binary64) I R
                   (half (fp := binary64) s) z))
             (f z) (f' z).
Proof.
  apply (total_bz_even_rounded (fp := binary64)).
  - apply powerRZ_le. lra.
  - intros x. apply round_binary_error.
  - intros x. apply round_binary_opp.
Qed.

(** * Doubling the current *)

Section DoublingCurrent.
Context {fp : Arith}.

(** Rounding commutes with doubling: so it is for a binary format with
    rounding to nearest, as long as nothing overflows or falls below the
    normal range. *)
Hypothesis rnd_double : forall x : R, rnd (2 * x) = 2 * rnd x.







End DoublingCurrent.

(** ** Doubling at the results of a run *)


Section DoublingAt.
Context {fp : Arith}.







End DoublingAt.




(** * Exact arithmetic *)

(** Throughout this section the arithmetic of [bz_from_loop], [total_bz] and
    the operations is [exact_arith]. *)

Section ExactArithmetic.

#[local] Existing Instance exact_arith.

Lemma pow_3_2_Rpower (x : R) : 0 < x -> pow_3_2 x = Rpower x (3 / 2).
Proof.
  intros Hx. unfold pow_3_2.
  rewrite <- (Rpower_sqrt x Hx).
  assert (Hs : 0 < Rpower x (/ 2)) by apply exp_pos.
  rewrite <- (Rpower_pow 3 _ Hs), Rpower_mult.
  f_equal. simpl. lra.
Qed.

Lemma is_integer_2 : is_integer 2.
Proof.
  unfold is_integer.
  rewrite <- (Int_part_spec 2 2); [reflexivity | lra].
Qed.

Lemma power_2 (x : R) : power (fin x) 2 = fin (x * x).
Proof.
  unfold power, fin; simpl.
  destruct (Req_dec_T 2 0) as [H|_]; [lra|].
  destruct (Rlt_dec 0 x) as [Hx|Hx].
  - replace 2 with (INR 2) by (simpl; lra).
    rewrite (Rpower_pow 2 x Hx). f_equal. simpl. lra.
  - destruct (Req_dec_T x 0) as [->|Hx0].
    + destruct (Rlt_dec 0 2); [f_equal; lra | lra].
    + destruct (is_integer_dec 2) as [_|Hn]; [|destruct Hn; apply is_integer_2].
      rewrite <- (Int_part_spec 2 2) by lra.
      f_equal. simpl. lra.
Qed.

Lemma power_1_5 (x : R) : 0 <= x -> power (fin x) 1.5 = fin (pow_3_2 x).
Proof.
  intros Hx. unfold power, fin; simpl.
  destruct (Req_dec_T 1.5 0) as [H|_]; [lra|].
  destruct (Rlt_dec 0 x) as [Hp|Hp].
  - rewrite (pow_3_2_Rpower x Hp). do 2 f_equal. lra.
  - assert (x = 0) by lra. subst x.
    destruct (Req_dec_T 0 0) as [_|H]; [|lra].
    destruct (Rlt_dec 0 1.5) as [_|H]; [|lra].
    unfold pow_3_2. rewrite sqrt_0. f_equal. simpl. lra.
Qed.

Lemma sum_squares_nonneg (a b : R) : 0 <= a * a + b * b.
Proof. nra. Qed.

Lemma loop_denominator_exact (R z0 z : real) :
  loop_denominator R z0 z =
  fin (2 * pow_3_2 (R * R + (z - z0) * (z - z0))).
Proof.
  unfold loop_denominator.
  rewrite power_2. change (fin z - fin z0)%fp with (fin (z - z0)).
  rewrite power_2.
  change (fin (R * R) + fin ((z - z0) * (z - z0)))%fp
    with (fin (R * R + (z - z0) * (z - z0))).
  rewrite power_1_5 by apply sum_squares_nonneg.
  reflexivity.
Qed.

Lemma pow_3_2_pos (x : R) : 0 < x -> 0 < pow_3_2 x.
Proof.
  intros Hx. unfold pow_3_2. apply pow_lt, sqrt_lt_R0, Hx.
Qed.

Lemma pow_3_2_0 : pow_3_2 0 = 0.
Proof. unfold pow_3_2. rewrite sqrt_0. simpl. lra. Qed.

(** The code computes the formula of the specification. *)
Lemma bz_from_loop_exact (I R z0 z : real) :
  bz_from_loop I R z0 z = axial_field I R z0 z.
Proof.
  unfold bz_from_loop, axial_field, quotient.
  rewrite loop_denominator_exact, power_2.
  cbn [np_pi lit literal fin mul lift2 div rnd exact_arith].
  replace (R ^ 2 + (z - z0) ^ 2) with (R * R + (z - z0) * (z - z0)) by ring.
  destruct (Req_dec_T _ 0) as [E|E]; [reflexivity|].
  f_equal. unfold mu0. f_equal. lra.
Qed.

Lemma half_exact (x : R) : half x = x / 2.
Proof. reflexivity. Qed.

Lemma accumulate_fin (n : nat) (a b : R) :
  accumulate n (fin a) (fin b) = fin (INR n * (a + b)).
Proof.
  unfold accumulate.
  induction n as [|n IH].
  - simpl. unfold fin. apply f_equal. ring.
  - rewrite Nat.iter_succ, IH, S_INR.
    cbn [add lift2 fin rnd exact_arith]. apply f_equal. ring.
Qed.

(** From the first pass on, the accumulated value is the number of passes
    times the sum of the two fields. *)
Lemma accumulate_scale (n : nat) (a b : value) :
  accumulate (S n) a b = scale (INR (S n)) (add a b).
Proof.
  destruct a as [x|]; [destruct b as [y|]|].
  - apply accumulate_fin.
  - apply accumulate_nonfinite. now right.
  - rewrite accumulate_nonfinite by now left. reflexivity.
Qed.

Lemma accumulate_positive (N : positive) (a b : value) :
  accumulate (Z.to_nat (Zpos N)) a b = scale (IZR (Zpos N)) (add a b).
Proof.
  rewrite Z2Nat.inj_pos.
  destruct (Pos2Nat.is_succ N) as [n Hn].
  rewrite <- (positive_nat_Z N), <- INR_IZR_INZ, Hn.
  apply accumulate_scale.
Qed.

(** The field of the pair at one grid point after [int(turns)] passes, in
    terms of the formula of the single loop. *)
Lemma total_bz_exact (zs : list R) (s : real) (t : number) (R I : real) :
  total_bz zs s t R I =
  n <- py_int t ;;
  Returns (map (fun z => accumulate (Z.to_nat n)
                           (axial_field I R (- s / 2) z)
                           (axial_field I R (s / 2) z)) zs).
Proof.
  rewrite total_bz_pointwise.
  destruct (py_int t) as [n|]; cbn [bind]; [|reflexivity].
  apply f_equal, map_ext. intros z.
  now rewrite !half_exact, !bz_from_loop_exact.
Qed.



Lemma axial_field_mirror (I R z0 z : real) :
  axial_field I R (- z0) (- z) = axial_field I R z0 z.
Proof.
  unfold axial_field.
  now replace ((- z - - z0) ^ 2) with ((z - z0) ^ 2) by ring.
Qed.

Lemma add_comm_exact (a b : value) : add a b = add b a.
Proof.
  destruct a, b; cbn [add lift2 rnd exact_arith]; try reflexivity.
  apply f_equal. ring.
Qed.

Lemma accumulate_swap (n : nat) (a b : value) :
  accumulate n a b = accumulate n b a.
Proof.
  destruct n as [|n]; [reflexivity|].
  now rewrite !accumulate_scale, add_comm_exact.
Qed.

(** In exact arithmetic the samples of [linspace] are evenly spaced from
    [start] to [stop]. *)
Lemma linspace_exact (a b : R) (m : nat) :
  linspace a b (S (S m)) =
  map (fun i => a + INR i * ((b - a) / INR (S m))) (seq 0 (S (S m))).
Proof.
  assert (Hm : INR (S m) <> 0) by (apply not_0_INR; lia).
  unfold linspace.
  replace (S (S m) - 1)%nat with (S m) by lia.
  change (0 <? S m)%nat with true. change (1 <? S (S m))%nat with true.
  cbv iota. cbn [rnd exact_arith].
  assert (Hy : forall l : list nat,
             map (fun v => v + a)
               (if Req_dec_T ((b - a) / INR (S m)) 0
                then map (fun i => i / INR (S m) * (b - a)) (map INR l)
                else map (fun i => i * ((b - a) / INR (S m))) (map INR l)) =
             map (fun i => a + INR i * ((b - a) / INR (S m))) l).
  { intros l. destruct (Req_dec_T _ 0) as [E|E]; rewrite !map_map;
      apply map_ext; intros i; field; exact Hm. }
  rewrite Hy, (seq_S (S m)), map_app. cbn [map Nat.add].
  rewrite removelast_last. do 2 f_equal. field. exact Hm.
Qed.

Lemma rev_seq (n : nat) :
  rev (seq 0 n) = map (fun i => (n - 1 - i)%nat) (seq 0 n).
Proof.
  induction n as [|n IH]; [reflexivity|].
  rewrite seq_S at 1. rewrite rev_app_distr. cbn [rev app Nat.add].
  rewrite IH. cbn [seq map]. f_equal; [lia|].
  rewrite <- seq_shift, map_map.
  apply map_ext. intros i. lia.
Qed.

(** A grid from [-a] to [a] reads backwards as its mirror image. *)
Lemma linspace_mirror (a : R) (m : nat) :
  rev (linspace (- a) a (S (S m))) = map Ropp (linspace (- a) a (S (S m))).
Proof.
  assert (Hm : INR (S m) <> 0) by (apply not_0_INR; lia).
  rewrite linspace_exact, <- map_rev, rev_seq, !map_map.
  apply map_ext_in. intros i Hi. apply in_seq in Hi.
  replace (S (S m) - 1 - i)%nat with (S m - i)%nat by lia.
  rewrite minus_INR by lia. field. exact Hm.
Qed.

Lemma total_bz_rev (zs : list real) (s : real) (t : number) (R I : real) :
  total_bz (rev zs) s t R I =
  bz <- total_bz zs s t R I ;; Returns (rev bz).
Proof.
  rewrite !total_bz_pointwise.
  destruct (py_int t) as [n|]; cbn [bind]; [|reflexivity].
  now rewrite map_rev.
Qed.

Lemma total_bz_mirror (zs : list real) (s : real) (t : number) (R I : real) :
  total_bz (map Ropp zs) s t R I = total_bz zs s t R I.
Proof.
  rewrite !total_bz_exact.
  destruct (py_int t) as [n|]; cbn [bind]; [|reflexivity].
  apply f_equal. rewrite map_map. apply map_ext. intros z.
  rewrite accumulate_swap.
  rewrite <- (axial_field_mirror I R (- s / 2) z).
  rewrite <- (axial_field_mirror I R (s / 2) z).
  now replace (- (- s / 2)) with (s / 2) by lra;
    replace (- (s / 2)) with (- s / 2) by lra.
Qed.

(** On the grid of the script the curve reads the same backwards, whatever
    the parameters; so does the curve first plotted. *)
Lemma curve_palindrome (s : real) (t : number) (R I : real) (bz : list value) :
  total_bz Script.z s t R I = Returns bz -> rev bz = bz.
Proof.
  intros Hbz.
  assert (Hrev : total_bz (rev Script.z) s t R I = Returns (rev bz))
    by (rewrite total_bz_rev, Hbz; reflexivity).
  unfold Script.z in Hrev.
  change 1000%nat with (S (S 998)) in Hrev.
  rewrite linspace_mirror, total_bz_mirror in Hrev.
  change (S (S 998)) with 1000%nat in Hrev. fold (Script.z) in Hrev.
  rewrite Hbz in Hrev. now injection Hrev.
Qed.

(** The curve first plotted: 1000 samples, the same read backwards. *)
Corollary initial_curve :
  exists bz,
    Script.bz = Returns bz /\ length bz = 1000%nat /\ rev bz = bz.
Proof.
  unfold Script.bz.
  destruct (total_bz Script.z Script.init_spacing Script.init_turns
              Script.init_radius Script.init_current) as [bz|] eqn:Hbz.
  - exists bz. split; [reflexivity|]. split.
    + eapply length_curve, Hbz.
    + eapply curve_palindrome, Hbz.
  - rewrite total_bz_pointwise in Hbz. discriminate Hbz.
Qed.


Lemma mu0_pos : 0 < mu0.
Proof.
  unfold mu0. pose proof PI_RGT_0.
  assert (0 < / 10 ^ 7) by (apply Rinv_0_lt_compat; lra).
  apply Rmult_lt_0_compat; lra.
Qed.

Lemma cube_lt (a b : R) : 0 <= a -> a < b -> a ^ 3 < b ^ 3.
Proof.
  intros Ha Hab.
  assert (H1 : a * a <= b * b) by (apply Rmult_le_compat; lra).
  assert (H2 : 0 < b * b) by (apply Rmult_lt_0_compat; lra).
  assert (H3 : a * (a * a) <= a * (b * b))
    by (apply Rmult_le_compat_l; lra).
  assert (H4 : a * (b * b) < b * (b * b))
    by (apply Rmult_lt_compat_r; lra).
  simpl. lra.
Qed.

Lemma pow_3_2_lt (x y : R) : 0 <= x -> x < y -> pow_3_2 x < pow_3_2 y.
Proof.
  intros Hx Hxy. unfold pow_3_2.
  apply cube_lt; [apply sqrt_pos|].
  apply sqrt_lt_1_alt. lra.
Qed.

(** The field of one loop of radius [R > 0] is finite. *)
Lemma axial_field_finite (I R z0 z : real) :
  0 < R ->
  axial_field I R z0 z =
  fin (mu0 * I * R ^ 2 / (2 * pow_3_2 (R ^ 2 + (z - z0) ^ 2))).
Proof.
  intros HR. unfold axial_field, quotient.
  destruct (Req_dec_T _ 0) as [E|E]; [|reflexivity].
  assert (0 < R * R) by (apply Rmult_lt_0_compat; exact HR).
  pose proof (sum_squares_nonneg 0 (z - z0)).
  assert (0 < pow_3_2 (R ^ 2 + (z - z0) ^ 2))
    by (apply pow_3_2_pos; simpl; lra).
  lra.
Qed.

(** The field of one loop, for a positive current, is positive and falls
    strictly with the distance from the loop. *)
Lemma loop_field_decreasing (I R d d' : real) :
  0 < I -> 0 < R -> 0 <= d -> d < d' ->
  0 < mu0 * I * R ^ 2 / (2 * pow_3_2 (R ^ 2 + d' ^ 2)) <
      mu0 * I * R ^ 2 / (2 * pow_3_2 (R ^ 2 + d ^ 2)).
Proof.
  intros HI HR Hd Hdd.
  assert (HRR : 0 < R ^ 2) by (apply pow_lt; exact HR).
  assert (Hc : 0 < mu0 * I * R ^ 2).
  { pose proof mu0_pos.
    apply Rmult_lt_0_compat; [apply Rmult_lt_0_compat|]; assumption. }
  assert (Hd2 : 0 <= d ^ 2) by (apply pow_le; exact Hd).
  assert (Hlt : d ^ 2 < d' ^ 2).
  { simpl. rewrite !Rmult_1_r.
    apply Rle_lt_trans with (d * d'); [apply Rmult_le_compat_l|
      apply Rmult_lt_compat_r]; lra. }
  assert (Hp : 0 < pow_3_2 (R ^ 2 + d ^ 2)) by (apply pow_3_2_pos; lra).
  assert (Hpp : pow_3_2 (R ^ 2 + d ^ 2) < pow_3_2 (R ^ 2 + d' ^ 2))
    by (apply pow_3_2_lt; lra).
  split.
  - apply Rdiv_lt_0_compat; lra.
  - unfold Rdiv. apply Rmult_lt_compat_l; [exact Hc|].
    apply Rinv_lt_contravar; [|lra].
    apply Rmult_lt_0_compat; lra.
Qed.

(** In exact arithmetic, for spacing, radius and current all positive and a
    turn count [N >= 1], the magnitude of the field of the pair falls
    strictly as the position grows beyond max(R, s/2). *)
Lemma total_bz_falls_off_exact (s R I : real) (N : positive) (z z' : real) :
  0 < s -> 0 < R -> 0 < I ->
  Rmax R (s / 2) < z -> z < z' ->
  exists b b',
    total_bz [z] s (Int (Zpos N)) R I = Returns [fin b] /\
    total_bz [z'] s (Int (Zpos N)) R I = Returns [fin b'] /\
    Rabs b' < Rabs b.
Proof.
  intros Hs HR HI Hz Hzz.
  assert (Hz2 : s / 2 < z) by (pose proof (Rmax_r R (s / 2)); lra).
  rewrite !total_bz_exact. cbn [py_int bind map].
  rewrite !accumulate_positive, !axial_field_finite by exact HR.
  cbn [add lift2 scale option_map fin rnd exact_arith].
  do 2 eexists. split; [reflexivity|]. split; [reflexivity|].
  replace (z - - s / 2) with (z + s / 2) by lra.
  replace (z' - - s / 2) with (z' + s / 2) by lra.
  destruct (loop_field_decreasing I R (z + s / 2) (z' + s / 2))
    as [P1 L1]; try lra.
  destruct (loop_field_decreasing I R (z - s / 2) (z' - s / 2))
    as [P2 L2]; try lra.
  assert (HN : 0 < IZR (Zpos N)) by (apply IZR_lt; lia).
  set (a := mu0 * I * R ^ 2 / (2 * pow_3_2 (R ^ 2 + (z + s / 2) ^ 2))) in *.
  set (a' := mu0 * I * R ^ 2 / (2 * pow_3_2 (R ^ 2 + (z' + s / 2) ^ 2))) in *.
  set (c := mu0 * I * R ^ 2 / (2 * pow_3_2 (R ^ 2 + (z - s / 2) ^ 2))) in *.
  set (c' := mu0 * I * R ^ 2 / (2 * pow_3_2 (R ^ 2 + (z' - s / 2) ^ 2))) in *.
  assert (Hlt : IZR (Zpos N) * (a' + c') < IZR (Zpos N) * (a + c))
    by (apply Rmult_lt_compat_l; lra).
  assert (Hpos : 0 < IZR (Zpos N) * (a' + c'))
    by (apply Rmult_lt_0_compat; lra).
  rewrite !Rabs_pos_eq by lra.
  exact Hlt.
Qed.

(** In exact arithmetic the divisor 2 (R^2 + (z - z0)^2)^1.5 of
    [bz_from_loop] is strictly positive for a radius [R > 0], and
    [bz_from_loop] returns the quotient. *)
Lemma loop_denominator_positive_exact (I R z0 z : real) :
  0 < R ->
  exists d,
    loop_denominator R z0 z = fin d /\ 0 < d /\
    bz_from_loop I R z0 z = fin (mu0 * I * R ^ 2 / d).
Proof.
  intros HR.
  exists (2 * pow_3_2 (R * R + (z - z0) * (z - z0))).
  assert (Hd : 0 < 2 * pow_3_2 (R * R + (z - z0) * (z - z0))).
  { assert (0 < R * R) by (apply Rmult_lt_0_compat; exact HR).
    pose proof (sum_squares_nonneg 0 (z - z0)).
    assert (0 < pow_3_2 (R * R + (z - z0) * (z - z0)))
      by (apply pow_3_2_pos; lra).
    lra. }
  split; [apply loop_denominator_exact|]. split; [exact Hd|].
  rewrite bz_from_loop_exact. unfold axial_field, quotient.
  replace (R ^ 2 + (z - z0) ^ 2) with (R * R + (z - z0) * (z - z0)) by ring.
  destruct (Req_dec_T _ 0) as [E|E]; [lra|reflexivity].
Qed.

End ExactArithmetic.

(** * Scaling laws *)





Lemma total_bz_truncates_turns_example :
  total_bz (fp := exact_arith) [0] (1 / 10) (Float (fin (1 / 2))) (1 / 20) 1 =
  Returns (map (fun _ => fin 0) [0]) /\
  trunc (5 / 2) = Int_part (5 / 2) /\
  total_bz (fp := exact_arith) [0] (1 / 10) (Float (fin (5 / 2))) (1 / 20) 1 =
  total_bz (fp := exact_arith) [0] (1 / 10) (Int (Int_part (5 / 2))) (1 / 20) 1.
Proof.
  split.
  - apply (proj1 (proj2 (total_bz_truncates_turns (fp := exact_arith)
                           [0] (1 / 10) (1 / 2) (1 / 20) 1))).
    lra.
  - apply (proj2 (proj2 (total_bz_truncates_turns (fp := exact_arith)
                           [0] (1 / 10) (5 / 2) (1 / 20) 1))).
    lra.
Defined.

(** * Symmetry about the midpoint *)

Section OneTurn.
Context {fp : Arith}.

(** Rounding is odd, and rounding a float gives the float. *)
Hypothesis rnd_odd : forall x : R, rnd (- x) = - rnd x.
Hypothesis rnd_idempotent : forall x : R, rnd (rnd x) = rnd x.

Lemma add_sym (a b : value) : add a b = add b a.
Proof.
  destruct a as [x|], b as [y|]; cbn [add lift2]; try reflexivity.
  now rewrite Rplus_comm.
Qed.

(** The first addition of the loop, to the zero the array starts with,
    returns the field added, which is a float. *)
Lemma add_zero_bz_from_loop (I R z0 z : real) :
  add (fin 0) (bz_from_loop I R z0 z) = bz_from_loop I R z0 z.
Proof.
  unfold bz_from_loop.
  destruct (mul _ _) as [n|], (loop_denominator R z0 z) as [d|];
    cbn [div add lift2 fin]; try reflexivity.
  destruct (Req_dec_T d 0); [reflexivity|].
  cbn [add lift2 fin]. now rewrite Rplus_0_l, rnd_idempotent.
Qed.

(** With at most one turn the curve on the mirrored grid is the curve on
    the grid, to the last bit. *)
Lemma total_bz_even_one_turn (zs : list real) (s : real) (n : Z)
    (R I : real) :
  (n <= 1)%Z ->
  total_bz (map Ropp zs) s (Int n) R I = total_bz zs s (Int n) R I.
Proof.
  intros Hn. rewrite !total_bz_pointwise. cbn [py_int bind].
  apply f_equal. rewrite map_map. apply map_ext. intros z.
  assert (E1 : bz_from_loop I R (half (- s)) (- z) =
               bz_from_loop I R (half s) z)
    by (rewrite (half_opp rnd_odd); now apply bz_from_loop_mirror).
  assert (E2 : bz_from_loop I R (half s) (- z) =
               bz_from_loop I R (half (- s)) z).
  { rewrite (half_opp rnd_odd).
    rewrite <- (Ropp_involutive (half s)) at 1.
    now apply bz_from_loop_mirror. }
  rewrite E1, E2.
  destruct (Z.to_nat n) as [|[|k]] eqn:Hk; [reflexivity| |lia].
  unfold accumulate, Nat.iter. cbn [nat_rect].
  rewrite !add_zero_bz_from_loop. apply add_sym.
Qed.

End OneTurn.

(** * The sign of the divisor *)

Section PositiveRounding.
Context {fp : Arith}.

(** A rounding that gives a positive number for a positive number: no
    result underflows to zero. *)
Hypothesis rnd_pos : forall x : R, 0 < x -> 0 < rnd x.
Hypothesis rnd_pow_pos : forall x : R, 0 < x -> 0 < rnd_pow x.

(** A square is not negative, and positive away from zero. *)
Lemma power_2_sign (x : R) :
  exists y, power (fin x) 2 = fin y /\ 0 <= y /\ (x <> 0 -> 0 < y).
Proof.
  unfold power, fin.
  destruct (Req_dec_T 2 0) as [H|_]; [lra|].
  destruct (Rlt_dec 0 x) as [Hx|Hx].
  - eexists. split; [reflexivity|].
    assert (0 < rnd_pow (Rpower x 2)) by (apply rnd_pow_pos, exp_pos).
    split; [lra | intros _; assumption].
  - destruct (Req_dec_T x 0) as [->|Hx0].
    + destruct (Rlt_dec 0 2) as [_|H]; [|lra].
      exists 0. split; [reflexivity|].
      split; [lra | intros H; now destruct H].
    + destruct (is_integer_dec 2) as [_|Hn]; [|destruct Hn; apply is_integer_2].
      eexists. split; [reflexivity|].
      assert (0 < rnd_pow (powerRZ x (Int_part 2))).
      { apply rnd_pow_pos.
        replace (Int_part 2) with 2%Z by (apply Int_part_spec; lra).
        simpl. nra. }
      split; [lra | intros _; assumption].
Qed.

Lemma loop_denominator_sign (R z0 z : real) :
  0 < R -> exists d, loop_denominator R z0 z = fin d /\ 0 < d.
Proof.
  intros HR. unfold loop_denominator.
  destruct (power_2_sign R) as (r2 & -> & _ & Hr2).
  specialize (Hr2 ltac:(lra)).
  cbn [sub lift2 fin].
  change (Some (rnd (z - z0))) with (fin (rnd (z - z0))).
  destruct (power_2_sign (rnd (z - z0))) as (d2 & -> & Hd2 & _).
  cbn [add lift2 fin].
  assert (Hsum : 0 < rnd (r2 + d2)) by (apply rnd_pos; lra).
  unfold power.
  destruct (Req_dec_T 1.5 0) as [H|_]; [lra|].
  destruct (Rlt_dec 0 (rnd (r2 + d2))) as [_|H]; [|lra].
  cbn [mul lift2 fin]. eexists. split; [reflexivity|].
  apply rnd_pos.
  assert (0 < rnd_pow (Rpower (rnd (r2 + d2)) 1.5))
    by (apply rnd_pow_pos, exp_pos).
  lra.
Qed.

(** The dividend is finite, the divisor positive, the quotient finite. *)
Lemma bz_from_loop_quotient (I R z0 z : real) :
  0 < R ->
  exists n d,
    mul (mul (mul (mul (fin 4) np_pi) (lit 1e-7)) (fin I)) (power (fin R) 2) =
    fin n /\
    loop_denominator R z0 z = fin d /\ 0 < d /\
    bz_from_loop I R z0 z = fin (rnd (n / d)).
Proof.
  intros HR. unfold bz_from_loop.
  destruct (loop_denominator_sign R z0 z HR) as (d & -> & Hd).
  destruct (power_2_sign R) as (r2 & -> & _).
  cbn [np_pi lit literal mul lift2 fin div].
  destruct (Req_dec_T d 0) as [H|_]; [lra|].
  do 2 eexists. split; [reflexivity|]. split; [reflexivity|].
  split; [exact Hd | reflexivity].
Qed.

End PositiveRounding.

(** * The fall-off beyond the coils *)

Section MonotoneRounding.
Context {fp : Arith}.

(** A rounding that is monotone and exact at zero, as rounding to nearest
    is. *)
Hypothesis rnd_le : forall x y : R, x <= y -> rnd x <= rnd y.
Hypothesis rnd_pow_le : forall x y : R, x <= y -> rnd_pow x <= rnd_pow y.
Hypothesis rnd_0 : rnd 0 = 0.
Hypothesis rnd_pow_0 : rnd_pow 0 = 0.

Lemma rnd_nonneg (x : R) : 0 <= x -> 0 <= rnd x.
Proof. intros Hx. rewrite <- rnd_0. now apply rnd_le. Qed.

Lemma rnd_pow_nonneg (x : R) : 0 <= x -> 0 <= rnd_pow x.
Proof. intros Hx. rewrite <- rnd_pow_0. now apply rnd_pow_le. Qed.

(** A square is not negative. *)
Lemma power_2_nonneg (x : R) : exists y, power (fin x) 2 = fin y /\ 0 <= y.
Proof.
  unfold power, fin.
  destruct (Req_dec_T 2 0) as [H|_]; [lra|].
  destruct (Rlt_dec 0 x) as [Hx|Hx].
  - eexists. split; [reflexivity|].
    apply rnd_pow_nonneg. left. apply exp_pos.
  - destruct (Req_dec_T x 0) as [->|Hx0].
    + destruct (Rlt_dec 0 2) as [_|H]; [|lra].
      exists 0. split; [reflexivity|lra].
    + destruct (is_integer_dec 2) as [_|Hn]; [|destruct Hn; apply is_integer_2].
      eexists. split; [reflexivity|].
      apply rnd_pow_nonneg.
      replace (Int_part 2) with 2%Z by (apply Int_part_spec; lra).
      simpl. nra.
Qed.

(** A power with a positive exponent does not fall when its base, not
    negative, grows. *)
Lemma power_le (d d' y : R) :
  0 < y -> 0 <= d <= d' ->
  exists p p',
    power (fin d) y = fin p /\ power (fin d') y = fin p' /\ 0 <= p <= p'.
Proof.
  intros Hy [Hd Hdd]. unfold power, fin.
  destruct (Req_dec_T y 0) as [H|_]; [lra|].
  destruct (Rlt_dec 0 d) as [Hd0|Hd0].
  - destruct (Rlt_dec 0 d') as [_|H]; [|lra].
    do 2 eexists. split; [reflexivity|]. split; [reflexivity|].
    split; [apply rnd_pow_nonneg; left; apply exp_pos|].
    apply rnd_pow_le, Rle_Rpower_l; lra.
  - destruct (Req_dec_T d 0) as [_|H]; [|lra].
    destruct (Rlt_dec 0 y) as [_|H]; [|lra].
    destruct (Rlt_dec 0 d') as [Hd'|Hd'].
    + do 2 eexists. split; [reflexivity|]. split; [reflexivity|].
      split; [lra|]. apply rnd_pow_nonneg. left. apply exp_pos.
    + destruct (Req_dec_T d' 0) as [_|H]; [|lra].
      do 2 eexists. split; [reflexivity|]. split; [reflexivity|]. lra.
Qed.

(** From the centre of the loop on, the divisor does not fall as the
    position grows. *)
Lemma loop_denominator_le (R z0 z z' : real) :
  z0 <= z -> z <= z' ->
  exists d d',
    loop_denominator R z0 z = fin d /\ loop_denominator R z0 z' = fin d' /\
    0 <= d <= d'.
Proof.
  intros Hz Hzz. unfold loop_denominator.
  destruct (power_2_nonneg R) as (r2 & -> & Hr2).
  cbn [sub lift2 fin].
  assert (H1 : 0 <= rnd (z - z0)) by (apply rnd_nonneg; lra).
  assert (H2 : rnd (z - z0) <= rnd (z' - z0)) by (apply rnd_le; lra).
  destruct (power_le (rnd (z - z0)) (rnd (z' - z0)) 2 ltac:(lra)
              (conj H1 H2)) as (q & q' & Hq & Hq' & Hq0 & Hqq).
  unfold fin in Hq, Hq'. rewrite Hq, Hq'. cbn [add lift2 fin].
  assert (H3 : 0 <= rnd (r2 + q)) by (apply rnd_nonneg; lra).
  assert (H4 : rnd (r2 + q) <= rnd (r2 + q')) by (apply rnd_le; lra).
  destruct (power_le (rnd (r2 + q)) (rnd (r2 + q')) 1.5 ltac:(lra)
              (conj H3 H4)) as (p & p' & Hp & Hp' & Hp0 & Hpp).
  unfold fin in Hp, Hp'. rewrite Hp, Hp'. cbn [mul lift2 fin].
  do 2 eexists. split; [reflexivity|]. split; [reflexivity|].
  split; [apply rnd_nonneg; lra | apply rnd_le; lra].
Qed.

(** The dividend of a current that is not negative is not negative. *)
Lemma dividend_nonneg (I R : real) :
  0 <= I ->
  exists n,
    mul (mul (mul (mul (fin 4) np_pi) (lit 1e-7)) (fin I)) (power (fin R) 2) =
    fin n /\ 0 <= n.
Proof.
  intros HI.
  destruct (power_2_nonneg R) as (r2 & -> & Hr2).
  cbn [np_pi lit literal mul lift2 fin].
  eexists. split; [reflexivity|].
  assert (P1 : 0 <= rnd PI) by (apply rnd_nonneg; left; apply PI_RGT_0).
  assert (P2 : 0 <= rnd (4 * rnd PI)) by (apply rnd_nonneg; lra).
  assert (P3 : 0 <= rnd 1e-7) by (apply rnd_nonneg; lra).
  assert (P4 : 0 <= rnd (rnd (4 * rnd PI) * rnd 1e-7))
    by (apply rnd_nonneg, Rmult_le_pos; assumption).
  assert (P5 : 0 <= rnd (rnd (rnd (4 * rnd PI) * rnd 1e-7) * I))
    by (apply rnd_nonneg, Rmult_le_pos; assumption).
  apply rnd_nonneg, Rmult_le_pos; assumption.
Qed.

(** From the centre of the loop on, a finite sample is followed by finite
    samples that are not negative and not larger. *)
Lemma bz_from_loop_le (I R z0 z z' q : real) :
  0 <= I -> z0 <= z -> z <= z' ->
  bz_from_loop I R z0 z = fin q ->
  exists q', bz_from_loop I R z0 z' = fin q' /\ 0 <= q' <= q.
Proof.
  intros HI Hz Hzz. unfold bz_from_loop.
  destruct (loop_denominator_le R z0 z z' Hz Hzz)
    as (d & d' & -> & -> & Hd & Hdd).
  destruct (dividend_nonneg I R HI) as (n & -> & Hn).
  cbn [div fin].
  destruct (Req_dec_T d 0) as [H|Hd0]; [discriminate|].
  destruct (Req_dec_T d' 0) as [H|_]; [lra|].
  intros [= <-]. eexists. split; [reflexivity|].
  assert (Hinv : 0 < / d') by (apply Rinv_0_lt_compat; lra).
  split.
  - apply rnd_nonneg. unfold Rdiv. apply Rmult_le_pos; lra.
  - apply rnd_le. unfold Rdiv. apply Rmult_le_compat_l; [lra|].
    apply Rinv_le_contravar; lra.
Qed.

(** The accumulated sum of fields that are not negative is not negative and
    grows with them. *)
Lemma accumulate_le (n : nat) (a a' b b' : R) :
  0 <= a' <= a -> 0 <= b' <= b ->
  exists v v',
    accumulate n (fin a) (fin b) = fin v /\
    accumulate n (fin a') (fin b') = fin v' /\
    0 <= v' <= v.
Proof.
  intros Ha Hb. unfold accumulate.
  induction n as [|n (v & v' & Hv & Hv' & Hvv)].
  - exists 0, 0. simpl. repeat split; lra.
  - rewrite !Nat.iter_succ, Hv, Hv'. cbn [add lift2 fin].
    do 2 eexists. split; [reflexivity|]. split; [reflexivity|].
    assert (P1 : 0 <= rnd (v' + a')) by (apply rnd_nonneg; lra).
    assert (P2 : rnd (v' + a') <= rnd (v + a)) by (apply rnd_le; lra).
    split; [apply rnd_nonneg; lra | apply rnd_le; lra].
Qed.

(** A finite sum has finite terms. *)
Lemma accumulate_finite (n : nat) (a b : value) (v : R) :
  accumulate (S n) a b = fin v -> exists x y, a = fin x /\ b = fin y.
Proof.
  destruct a as [x|]; [destruct b as [y|]|].
  - intros _. now exists x, y.
  - rewrite accumulate_nonfinite by now right. discriminate.
  - rewrite accumulate_nonfinite by now left. discriminate.
Qed.

(** Beyond both coils a finite sample of the pair is followed by finite
    samples that are not negative and not larger. *)
Lemma total_bz_falls_off_rounded (s R I : real) (N : positive)
    (z z' b : real) :
  0 <= I ->
  half (- s) <= z -> half s <= z -> z <= z' ->
  total_bz [z] s (Int (Zpos N)) R I = Returns [fin b] ->
  exists b',
    total_bz [z'] s (Int (Zpos N)) R I = Returns [fin b'] /\
    0 <= b' <= b.
Proof.
  intros HI Hz1 Hz2 Hzz.
  rewrite !total_bz_pointwise. cbn [py_int bind map].
  destruct (Pos2Nat.is_succ N) as [n Hn]. rewrite Z2Nat.inj_pos, Hn.
  intros [= Hb].
  destruct (accumulate_finite n _ _ b Hb) as (a & c & Ea & Ec).
  destruct (bz_from_loop_le I R (half (- s)) z z' a HI Hz1 Hzz Ea)
    as (a' & Ea' & Ha).
  destruct (bz_from_loop_le I R (half s) z z' c HI Hz2 Hzz Ec)
    as (c' & Ec' & Hc).
  rewrite Ea, Ec in Hb. rewrite Ea', Ec'.
  destruct (accumulate_le (S n) a a' c c' Ha Hc) as (v & v' & Hv & -> & Hvv).
  assert (E : fin v = fin b) by (rewrite <- Hv; exact Hb).
  injection E as <-.
  now exists v'.
Qed.

End MonotoneRounding.

(** * binary64 with gradual underflow

    The arithmetic [binary64_gradual] rounds as binary64 does wherever the
    result does not overflow: it is odd, monotone and idempotent, exact at
    zero and at the powers of two from 2^-1074 on, and it lets a result
    underflow. *)

Lemma accumulate_finite_terms {fp : Arith} (n : nat) (x y : R) :
  exists v, accumulate n (fin x) (fin y) = fin v.
Proof.
  unfold accumulate. induction n as [|n [v Hv]].
  - now exists 0.
  - rewrite Nat.iter_succ, Hv. cbn [add lift2 fin]. now eexists.
Qed.

Section GradualUnderflow.

#[local] Existing Instance binary64_gradual.

Lemma rnd_gradual_le (x y : R) : x <= y -> rnd x <= rnd y.
Proof. apply round_gradual_le. lia. Qed.

Lemma rnd_gradual_0 : rnd 0 = 0.
Proof. apply round_gradual_0. Qed.

(** A result that is at least a power of two rounds to at least that
    power. *)
Lemma rnd_gradual_ge (k : Z) (x : R) :
  (- 1074 <= k)%Z -> powerRZ 2 k <= x -> powerRZ 2 k <= rnd x.
Proof.
  intros Hk Hx.
  rewrite <- (round_gradual_pow2 53 (- 1074) k) at 1 by lia.
  now apply rnd_gradual_le.
Qed.

Lemma Rpower_powerRZ_1_5 (k : Z) :
  Rpower (powerRZ 2 (2 * k)) 1.5 = powerRZ 2 (3 * k).
Proof.
  rewrite !powerRZ_Rpower by lra. rewrite Rpower_mult. f_equal.
  rewrite !mult_IZR. lra.
Qed.

(** For a radius of at least 2^-358 no term of the divisor underflows to
    zero. *)
Lemma loop_denominator_gradual (R z0 z : real) :
  powerRZ 2 (- 358) <= R ->
  exists d, loop_denominator R z0 z = fin d /\ powerRZ 2 (- 1073) <= d.
Proof.
  intros HR.
  assert (H358 : 0 < powerRZ 2 (- 358)) by (apply powerRZ_lt; lra).
  assert (H716 : 0 < powerRZ 2 (- 716)) by (apply powerRZ_lt; lra).
  assert (H1074 : 0 < powerRZ 2 (- 1074)) by (apply powerRZ_lt; lra).
  unfold loop_denominator.
  assert (Er2 : exists r2, power (fin R) 2 = fin r2 /\ powerRZ 2 (- 716) <= r2).
  { unfold power, fin.
    destruct (Req_dec_T 2 0) as [H|_]; [lra|].
    destruct (Rlt_dec 0 R) as [_|H]; [|lra].
    eexists. split; [reflexivity|].
    apply (rnd_gradual_ge (- 716)); [lia|].
    replace 2 with (INR 2) at 2 by (simpl; lra).
    rewrite Rpower_pow by lra.
    change (- 716)%Z with (- 358 + - 358)%Z. rewrite powerRZ_add by lra.
    simpl pow. rewrite Rmult_1_r.
    apply Rmult_le_compat; lra. }
  destruct Er2 as (r2 & -> & Hr2).
  cbn [sub lift2 fin].
  change (Some (rnd (z - z0))) with (fin (rnd (z - z0))).
  destruct (power_2_nonneg (fp := binary64_gradual) rnd_gradual_le
              rnd_gradual_0 (rnd (z - z0))) as (q & -> & Hq).
  cbn [add lift2 fin].
  assert (Hsum : powerRZ 2 (- 716) <= rnd (r2 + q))
    by (apply (rnd_gradual_ge (- 716)); [lia | lra]).
  unfold power.
  destruct (Req_dec_T 1.5 0) as [H|_]; [lra|].
  destruct (Rlt_dec 0 (rnd (r2 + q))) as [_|H]; [|lra].
  cbn [mul lift2 fin]. eexists. split; [reflexivity|].
  assert (Hp : powerRZ 2 (- 1074) <= rnd_pow (Rpower (rnd (r2 + q)) 1.5)).
  { apply (rnd_gradual_ge (- 1074)); [lia|].
    change (- 1074)%Z with (3 * - 358)%Z.
    rewrite <- Rpower_powerRZ_1_5. change (2 * - 358)%Z with (- 716)%Z.
    apply Rle_Rpower_l; lra. }
  apply (rnd_gradual_ge (- 1073)); [lia|].
  change (- 1073)%Z with (1 + - 1074)%Z. rewrite powerRZ_add by lra.
  simpl (powerRZ 2 1). lra.
Qed.

(** Then the quotient is finite. *)
Lemma bz_from_loop_gradual (I R z0 z : real) :
  powerRZ 2 (- 358) <= R ->
  exists n d,
    mul (mul (mul (mul (fin 4) np_pi) (lit 1e-7)) (fin I)) (power (fin R) 2) =
    fin n /\
    loop_denominator R z0 z = fin d /\ 0 < d /\
    bz_from_loop I R z0 z = fin (rnd (n / d)).
Proof.
  intros HR. unfold bz_from_loop.
  destruct (loop_denominator_gradual R z0 z HR) as (d & -> & Hd).
  assert (H1073 : 0 < powerRZ 2 (- 1073)) by (apply powerRZ_lt; lra).
  destruct (power_2_nonneg (fp := binary64_gradual) rnd_gradual_le
              rnd_gradual_0 R) as (r2 & -> & _).
  cbn [np_pi lit literal mul lift2 fin div].
  destruct (Req_dec_T d 0) as [H|_]; [lra|].
  do 2 eexists. split; [reflexivity|]. split; [reflexivity|].
  split; [lra | reflexivity].
Qed.

(** And so is the sample of the pair. *)
Lemma total_bz_gradual_finite (s R I z : real) (n : Z) :
  powerRZ 2 (- 358) <= R ->
  exists b, total_bz [z] s (Int n) R I = Returns [fin b].
Proof.
  intros HR. rewrite total_bz_pointwise. cbn [py_int bind map].
  destruct (bz_from_loop_gradual I R (half (- s)) z HR)
    as (? & ? & _ & _ & _ & ->).
  destruct (bz_from_loop_gradual I R (half s) z HR)
    as (? & ? & _ & _ & _ & ->).
  destruct (accumulate_finite_terms (Z.to_nat n) (rnd (x / x0)) (rnd (x1 / x2)))
    as [v ->].
  now exists v.
Qed.

(** Beyond both coils the samples do not grow. *)
Lemma total_bz_falls_off_gradual (s R I : real) (N : positive) (z z' : real) :
  0 < s -> 0 <= I -> powerRZ 2 (- 358) <= R ->
  rnd z = z -> s / 2 <= z -> z <= z' ->
  exists b b',
    total_bz [z] s (Int (Zpos N)) R I = Returns [fin b] /\
    total_bz [z'] s (Int (Zpos N)) R I = Returns [fin b'] /\
    0 <= b' <= b.
Proof.
  intros Hs HI HR Hz Hsz Hzz.
  destruct (total_bz_gradual_finite s R I z (Zpos N) HR) as [b Hb].
  assert (H2 : half s <= z)
    by (unfold half; rewrite <- Hz; apply rnd_gradual_le; lra).
  assert (H1 : half (- s) <= z).
  { apply Rle_trans with 0; [|lra].
    unfold half. rewrite <- rnd_gradual_0. apply rnd_gradual_le. lra. }
  destruct (total_bz_falls_off_rounded (fp := binary64_gradual)
              rnd_gradual_le rnd_gradual_le rnd_gradual_0 rnd_gradual_0
              s R I N z z' b HI H1 H2 Hzz Hb) as (b' & Hb' & Hbb).
  now exists b, b'.
Qed.

(** With at most one turn the curve is symmetric to the last bit. *)
Lemma total_bz_even_gradual (zs : list real) (s : real) (n : Z) (R I : real) :
  (n <= 1)%Z ->
  total_bz (map Ropp zs) s (Int n) R I = total_bz zs s (Int n) R I.
Proof.
  apply (total_bz_even_one_turn (fp := binary64_gradual)).
  - intros x. apply round_gradual_opp.
  - intros x. apply round_gradual_idempotent. lia.
Qed.

End GradualUnderflow.

(** * Symmetry, the divisor and the fall-off under rounding *)

(** C5.  The field of the pair is an even function of the position as far as
    rounding lets it be.  In exact arithmetic [total_bz] returns on the
    mirrored grid [-z], point by point, what it returns on the grid [z], for
    every grid, spacing, turn count, radius and current.  Under a rounding
    that is odd and has relative error at most [u], the two coils exchange
    their fields between [z] and [-z] to the last bit, but the loop adds them
    in the other order, so the two samples agree within
    2 ((1+u)^(2N) - 1) N (|B(z; -s/2)| + |B(z; +s/2)|) and need not be
    equal.  With at most one turn there is one sum of the two fields, and
    the samples are equal to the last bit under every rounding that is odd
    and idempotent, that of binary64 among them. *)
Theorem total_bz_even (zs : list real) (s R I : real) :
  (forall t : number,
      total_bz (fp := exact_arith) (map Ropp zs) s t R I =
      total_bz (fp := exact_arith) zs s t R I) /\
  (forall (fp : Arith) (u : real) (n : Z),
      0 <= u ->
      (forall x : real, Rabs (rnd x - x) <= u * Rabs x) ->
      (forall x : real, rnd (- x) = - rnd x) ->
      (forall z : real,
          bz_from_loop I R (half (- s)) (- z) = bz_from_loop I R (half s) z /\
          bz_from_loop I R (half s) (- z) = bz_from_loop I R (half (- s)) z) /\
      exists f f' : real -> value,
        total_bz zs s (Int n) R I = Returns (map f zs) /\
        total_bz (map Ropp zs) s (Int n) R I = Returns (map f' zs) /\
        forall z : real,
          within (mirror_tolerance u (Z.to_nat n)
                    (bz_from_loop I R (half (- s)) z)
                    (bz_from_loop I R (half s) z))
                 (f z) (f' z)) /\
  (forall (fp : Arith) (n : Z),
      (forall x : real, rnd (- x) = - rnd x) ->
      (forall x : real, rnd (rnd x) = rnd x) ->
      (n <= 1)%Z ->
      total_bz (map Ropp zs) s (Int n) R I = total_bz zs s (Int n) R I) /\
  (forall n : Z,
      (n <= 1)%Z ->
      total_bz (fp := binary64_gradual) (map Ropp zs) s (Int n) R I =
      total_bz (fp := binary64_gradual) zs s (Int n) R I).
Proof.
  split; [|split; [|split]].
  - intros t. apply total_bz_mirror.
  - intros fp u n Hu Hrnd Hodd. split.
    + intros z. split.
      * rewrite (half_opp Hodd). now apply bz_from_loop_mirror.
      * rewrite (half_opp Hodd).
        rewrite <- (Ropp_involutive (half s)) at 1.
        now apply bz_from_loop_mirror.
    + now apply (total_bz_even_rounded u).
  - intros fp n Hodd Hidem Hn. now apply total_bz_even_one_turn.
  - intros n Hn. now apply total_bz_even_gradual.
Qed.

(** The symmetry at the initial parameters, in 53-bit arithmetic: within the
    tolerance for the ten turns, to the last bit for one turn. *)
Lemma total_bz_even_example :
  (exists f f' : real -> value,
      total_bz (fp := binary64) [1 / 100] (1 / 10) (Int 10) (1 / 20) 1 =
      Returns (map f [1 / 100]) /\
      total_bz (fp := binary64) (map Ropp [1 / 100]) (1 / 10) (Int 10)
        (1 / 20) 1 = Returns (map f' [1 / 100]) /\
      forall z : real,
        within (mirror_tolerance (powerRZ 2 (- 53)) (Z.to_nat 10)
                  (bz_from_loop (fp := binary64) 1 (1 / 20)
                     (half (fp := binary64) (- (1 / 10))) z)
                  (bz_from_loop (fp := binary64) 1 (1 / 20)
                     (half (fp := binary64) (1 / 10)) z))
               (f z) (f' z)) /\
  total_bz (fp := binary64) (map Ropp [1 / 100]) (1 / 10) (Int 1) (1 / 20) 1 =
  total_bz (fp := binary64) [1 / 100] (1 / 10) (Int 1) (1 / 20) 1 /\
  total_bz (fp := binary64_gradual) (map Ropp [1 / 100]) (1 / 10) (Int 1)
    (1 / 20) 1 =
  total_bz (fp := binary64_gradual) [1 / 100] (1 / 10) (Int 1) (1 / 20) 1.
Proof.
  destruct (total_bz_even [1 / 100] (1 / 10) (1 / 20) 1)
    as (_ & H2 & H3 & H4).
  split; [|split].
  - apply (H2 binary64 (powerRZ 2 (- 53)) 10%Z).
    + apply powerRZ_le. lra.
    + intros x. apply round_binary_error.
    + intros x. apply round_binary_opp.
  - apply (H3 binary64 1%Z).
    + intros x. apply round_binary_opp.
    + intros x. apply round_binary_idempotent. lia.
    + lia.
  - apply (H4 1%Z). lia.
Defined.

(** C8.  For a radius [R > 0] and every current, centre and position, the
    divisor 2 (R^2 + (z - z0)^2)^1.5 of [bz_from_loop] is a strictly positive
    number, so the division is by a non-zero number and [bz_from_loop]
    returns a finite value, the quotient: in exact arithmetic; under every
    rounding that gives positive results for positive numbers; and in
    binary64 with gradual underflow for every radius of at least 2^-358
    (about 1.7e-108), for which neither the square nor the power underflows
    to zero. *)
Theorem loop_denominator_positive (I R z0 z : real) :
  0 < R ->
  (exists d,
      loop_denominator (fp := exact_arith) R z0 z = fin d /\ 0 < d /\
      bz_from_loop (fp := exact_arith) I R z0 z =
      fin (mu0 * I * R ^ 2 / d)) /\
  (forall fp : Arith,
      (forall x : real, 0 < x -> 0 < rnd x) ->
      (forall x : real, 0 < x -> 0 < rnd_pow x) ->
      exists n d,
        mul (mul (mul (mul (fin 4) np_pi) (lit 1e-7)) (fin I))
            (power (fin R) 2) = fin n /\
        loop_denominator R z0 z = fin d /\ 0 < d /\
        bz_from_loop I R z0 z = fin (rnd (n / d))) /\
  (powerRZ 2 (- 358) <= R ->
   exists n d,
     mul (fp := binary64_gradual)
       (mul (fp := binary64_gradual)
          (mul (fp := binary64_gradual)
             (mul (fp := binary64_gradual) (fin 4)
                (np_pi (fp := binary64_gradual)))
             (lit (fp := binary64_gradual) 1e-7))
          (fin I))
       (power (fp := binary64_gradual) (fin R) 2) = fin n /\
     loop_denominator (fp := binary64_gradual) R z0 z = fin d /\ 0 < d /\
     bz_from_loop (fp := binary64_gradual) I R z0 z =
     fin (rnd (Arith := binary64_gradual) (n / d))).
Proof.
  intros HR. split; [|split].
  - now apply loop_denominator_positive_exact.
  - intros fp Hpos Hpow. now apply bz_from_loop_quotient.
  - intros Hlow. now apply bz_from_loop_gradual.
Qed.

(** The divisor at the centre of a coil of the initial radius, in 53-bit
    arithmetic with an unbounded exponent and in binary64 with gradual
    underflow. *)
Lemma loop_denominator_positive_example :
  (exists d b,
      loop_denominator (fp := binary64) (1 / 20) (1 / 20) (1 / 20) = fin d /\
      0 < d /\
      bz_from_loop (fp := binary64) 1 (1 / 20) (1 / 20) (1 / 20) = fin b) /\
  (exists d b,
      loop_denominator (fp := binary64_gradual) (1 / 20) (1 / 20) (1 / 20) =
      fin d /\ 0 < d /\
      bz_from_loop (fp := binary64_gradual) 1 (1 / 20) (1 / 20) (1 / 20) =
      fin b).
Proof.
  destruct (loop_denominator_positive 1 (1 / 20) (1 / 20) (1 / 20)
              ltac:(lra)) as (_ & H2 & H3).
  split.
  - destruct (H2 binary64) as (n & d & _ & Hd & Hpos & Hb).
    + intros x. apply round_binary_positive. lia.
    + intros x. apply round_binary_positive. lia.
    + now exists d, (rnd (Arith := binary64) (n / d)).
  - destruct H3 as (n & d & _ & Hd & Hpos & Hb).
    + apply Rle_trans with (powerRZ 2 (- 5)); [apply powerRZ_2_le; lia|].
      simpl. lra.
    + now exists d, (rnd (Arith := binary64_gradual) (n / d)).
Defined.

(** C7.  For spacing, radius and current all positive and a turn count
    [N >= 1], the magnitude of the field of the pair falls as the position
    grows beyond max(R, s/2).  In exact arithmetic it falls strictly: for
    [max(R, s/2) < z < z'] the fields at [z] and [z'] are finite and
    |B(z')| < |B(z)|.  Under a rounding that is monotone and exact at zero
    the computed samples do not grow: beyond the two centres [half (-s)] and
    [half s] the program uses, a finite sample at [z] is followed at [z']
    by a finite sample that is not negative and not larger; the two can be
    equal.  So it is in binary64 with gradual underflow, for every radius
    of at least 2^-358 and every float [z]. *)
Theorem total_bz_falls_off (s R I : real) (N : positive) (z z' : real) :
  0 < s -> 0 < R -> 0 < I ->
  Rmax R (s / 2) < z -> z < z' ->
  (exists b b',
      total_bz (fp := exact_arith) [z] s (Int (Zpos N)) R I =
      Returns [fin b] /\
      total_bz (fp := exact_arith) [z'] s (Int (Zpos N)) R I =
      Returns [fin b'] /\
      Rabs b' < Rabs b) /\
  (forall (fp : Arith) (b : real),
      (forall x y : real, x <= y -> rnd x <= rnd y) ->
      (forall x y : real, x <= y -> rnd_pow x <= rnd_pow y) ->
      rnd 0 = 0 -> rnd_pow 0 = 0 ->
      half (- s) <= z -> half s <= z ->
      total_bz [z] s (Int (Zpos N)) R I = Returns [fin b] ->
      exists b',
        total_bz [z'] s (Int (Zpos N)) R I = Returns [fin b'] /\
        0 <= b' <= b) /\
  (powerRZ 2 (- 358) <= R ->
   rnd (Arith := binary64_gradual) z = z ->
   exists b b',
     total_bz (fp := binary64_gradual) [z] s (Int (Zpos N)) R I =
     Returns [fin b] /\
     total_bz (fp := binary64_gradual) [z'] s (Int (Zpos N)) R I =
     Returns [fin b'] /\
     0 <= b' <= b).
Proof.
  intros Hs HR HI Hz Hzz.
  assert (Hz2 : s / 2 < z) by (pose proof (Rmax_r R (s / 2)); lra).
  split; [|split].
  - now apply total_bz_falls_off_exact.
  - intros fp b Hle Hple H0 Hp0 Hz1 Hz2' Hb.
    apply (total_bz_falls_off_rounded Hle Hple H0 Hp0 s R I N z z' b);
      try assumption; lra.
  - intros Hlow Hfloat.
    apply total_bz_falls_off_gradual; try assumption; lra.
Qed.

(** The fall-off between [z = 1] and [z = 2] for coils of radius 1/2 a
    distance 1 apart, in exact arithmetic and in binary64 with gradual
    underflow. *)
Lemma total_bz_falls_off_example :
  (exists b b',
      total_bz (fp := exact_arith) [1] 1 (Int 10) (1 / 2) 1 =
      Returns [fin b] /\
      total_bz (fp := exact_arith) [2] 1 (Int 10) (1 / 2) 1 =
      Returns [fin b'] /\
      Rabs b' < Rabs b) /\
  (exists b b',
      total_bz (fp := binary64_gradual) [1] 1 (Int 10) (1 / 2) 1 =
      Returns [fin b] /\
      total_bz (fp := binary64_gradual) [2] 1 (Int 10) (1 / 2) 1 =
      Returns [fin b'] /\
      0 <= b' <= b).
Proof.
  assert (Hmax : Rmax (1 / 2) (1 / 2) < 1)
    by (unfold Rmax; destruct (Rle_dec (1 / 2) (1 / 2)); lra).
  destruct (total_bz_falls_off 1 (1 / 2) 1 10 1 2) as (H1 & _ & H3);
    try lra.
  split; [exact H1|].
  apply H3; [|exact round_gradual_1].
  apply Rle_trans with (powerRZ 2 (- 1)); [apply powerRZ_2_le; lia|].
  simpl. lra.
Defined.

(** * Further properties of [bz_from_loop] and [total_bz] (any rounding) *)

Section FurtherProperties.
Context {fp : Arith}.

Lemma bz_from_loop_radius_sign (I R z0 z : real) :
  bz_from_loop I (- R) z0 z = bz_from_loop I R z0 z.
Proof.
  unfold bz_from_loop, loop_denominator.
  now rewrite power_2_mirror.
Qed.

(** X1.  The radius enters only as [R**2]: a negative radius gives, bit for
    bit, the field of the positive one, for the single loop and for the
    pair. *)
Theorem radius_sign_is_ignored (zs : list real) (s : real) (t : number)
    (R I z0 z : real) :
  bz_from_loop I (- R) z0 z = bz_from_loop I R z0 z /\
  total_bz zs s t (- R) I = total_bz zs s t R I.
Proof.
  split; [apply bz_from_loop_radius_sign|].
  rewrite !total_bz_pointwise.
  destruct (py_int t) as [n|]; cbn [bind]; [|reflexivity].
  apply f_equal, map_ext. intros x.
  now rewrite !bz_from_loop_radius_sign.
Qed.

Lemma trunc_below_one (t : R) : t < 1 -> (trunc t <= 0)%Z.
Proof.
  intros Ht. unfold trunc.
  destruct (Rle_dec 0 t) as [H0|H0].
  - rewrite <- (Int_part_spec t 0); [lia | lra].
  - destruct (base_Int_part (- t)) as [_ Hc].
    assert (-1 < Int_part (- t))%Z by (apply lt_IZR; lra).
    lia.
Qed.

(** X2.  A turn count below one runs the loop zero times: for an integer
    [n <= 0] and for a real [t < 1], negative ones included, [total_bz]
    returns the all-zeros curve. *)
Theorem turns_below_one_give_zeros (zs : list real) (s R I : real) :
  (forall n : Z, (n <= 0)%Z ->
     total_bz zs s (Int n) R I = Returns (zeros_like zs)) /\
  (forall t : real, t < 1 ->
     total_bz zs s (Float (fin t)) R I = Returns (zeros_like zs)).
Proof.
  split.
  - intros n Hn. unfold total_bz. cbn [py_int bind].
    now rewrite range_nonpos.
  - intros t Ht. unfold total_bz. cbn [py_int fin bind].
    now rewrite range_nonpos by (apply trunc_below_one, Ht).
Qed.

(** X3.  Each sample depends on its own position only: on a grid made of two
    pieces [total_bz] returns the two curves one after the other (the empty
    grid gives the empty curve). *)
Theorem total_bz_app (zs zs' : list real) (s : real) (t : number)
    (R I : real) :
  total_bz (zs ++ zs') s t R I =
  bz <- total_bz zs s t R I ;;
  bz' <- total_bz zs' s t R I ;;
  Returns (bz ++ bz').
Proof.
  rewrite !total_bz_pointwise.
  destruct (py_int t) as [n|]; cbn [bind]; [|reflexivity].
  now rewrite map_app.
Qed.

Lemma trunc_IZR (n : Z) : trunc (IZR n) = n.
Proof.
  unfold trunc. destruct (Rle_dec 0 (IZR n)) as [H|H].
  - symmetry. apply Int_part_spec. lra.
  - rewrite <- opp_IZR, <- (Int_part_spec (IZR (- n)) (- n)) by lra. lia.
Qed.

(** X4.  A float turn count with an integer value acts as that integer: the
    value 10.0 gives, bit for bit, the curve of the initial count 10. *)
Theorem integral_float_turns (zs : list real) (s : real) (n : Z)
    (R I : real) :
  total_bz zs s (Float (fin (IZR n))) R I = total_bz zs s (Int n) R I.
Proof.
  unfold total_bz. cbn [py_int fin bind]. now rewrite trunc_IZR.
Qed.

End FurtherProperties.

Lemma turns_below_one_give_zeros_example :
  total_bz (fp := binary64) [0; 1 / 10] (1 / 10) (Int (- 3)) (1 / 20) 1 =
  Returns (zeros_like [0; 1 / 10]) /\
  total_bz (fp := binary64) [0; 1 / 10] (1 / 10) (Float (fin (- 5 / 2)))
    (1 / 20) 1 =
  Returns (zeros_like [0; 1 / 10]).
Proof.
  split.
  - apply (proj1 (turns_below_one_give_zeros (fp := binary64)
                    [0; 1 / 10] (1 / 10) (1 / 20) 1)). lia.
  - apply (proj2 (turns_below_one_give_zeros (fp := binary64)
                    [0; 1 / 10] (1 / 10) (1 / 20) 1)). lra.
Defined.

(** * Reversing the current *)

Section ReversedCurrent.
Context {fp : Arith}.

(** Rounding is an odd function, as rounding to nearest is. *)
Hypothesis rnd_odd : forall x : R, rnd (- x) = - rnd x.

Lemma mul_neg_l (a b : value) : mul (neg a) b = neg (mul a b).
Proof.
  destruct a as [x|], b as [y|]; cbn [neg option_map mul lift2];
    try reflexivity.
  now rewrite Ropp_mult_distr_l_reverse, rnd_odd.
Qed.

Lemma div_neg_l (a b : value) : div (neg a) b = neg (div a b).
Proof.
  destruct a as [x|], b as [y|]; cbn [neg option_map div];
    try reflexivity.
  destruct (Req_dec_T y 0); cbn [option_map]; [reflexivity|].
  replace (- x / y) with (- (x / y)) by (unfold Rdiv; ring).
  now rewrite rnd_odd.
Qed.

Lemma add_neg (a b : value) : add (neg a) (neg b) = neg (add a b).
Proof.
  destruct a as [x|], b as [y|]; cbn [neg option_map add lift2];
    try reflexivity.
  now rewrite <- Ropp_plus_distr, rnd_odd.
Qed.

Lemma bz_from_loop_reversed (I R z0 z : real) :
  bz_from_loop (- I) R z0 z = neg (bz_from_loop I R z0 z).
Proof.
  unfold bz_from_loop.
  set (mu_0 := mul (mul (fin 4) np_pi) (lit 1e-7)).
  assert (H : mul mu_0 (fin (- I)) = neg (mul mu_0 (fin I))).
  { destruct mu_0 as [m|]; cbn [neg option_map mul lift2 fin];
      [|reflexivity].
    now rewrite Ropp_mult_distr_r_reverse, rnd_odd. }
  now rewrite H, mul_neg_l, div_neg_l.
Qed.

Lemma accumulate_neg (n : nat) (a b : value) :
  accumulate n (neg a) (neg b) = neg (accumulate n a b).
Proof.
  unfold accumulate. induction n as [|n IH].
  - simpl. unfold fin. now rewrite Ropp_0.
  - rewrite !Nat.iter_succ, IH. now rewrite !add_neg.
Qed.

(** X5.  Reversing the current flips the sign of every sample and changes
    nothing else, to the last bit, under every rounding that is an odd
    function. *)
Theorem reversed_current_negates (zs : list real) (s : real) (t : number)
    (R I : real) :
  total_bz zs s t R (- I) =
  bz <- total_bz zs s t R I ;; Returns (map neg bz).
Proof.
  rewrite !total_bz_pointwise.
  destruct (py_int t) as [n|]; cbn [bind]; [|reflexivity].
  apply f_equal. rewrite map_map. apply map_ext. intros z.
  now rewrite !bz_from_loop_reversed, accumulate_neg.
Qed.

End ReversedCurrent.

Lemma reversed_current_negates_binary64 :
  total_bz (fp := binary64) [0; 1 / 10] (1 / 10) (Int 10) (1 / 20) (- 1) =
  bz <- total_bz (fp := binary64) [0; 1 / 10] (1 / 10) (Int 10) (1 / 20) 1 ;;
  Returns (map neg bz).
Proof.
  apply (reversed_current_negates (fp := binary64)).
  intros x. apply round_binary_opp.
Defined.

(** * Rounding error of the curve *)

(** X6.  Under the standard model of rounding (relative error at most [u] per
    operation) the [N] passes of the loop return, at each grid point, a value
    within (1+u)^(2N) - 1 of N (a + b), relative to N (|a| + |b|), where [a]
    and [b] are the fields of the two coils as [bz_from_loop] computed
    them. *)
Theorem accumulation_error_bound (fp : Arith) (u : real) (zs : list real)
    (s : real) (N : positive) (R I : real) :
  0 <= u ->
  (forall x : real, Rabs (rnd x - x) <= u * Rabs x) ->
  exists f : real -> value,
    total_bz zs s (Int (Zpos N)) R I = Returns (map f zs) /\
    forall z : real,
      let a := bz_from_loop I R (half (- s)) z in
      let b := bz_from_loop I R (half s) z in
      within (growth u (Pos.to_nat N) * IZR (Zpos N)
              * (magnitude a + magnitude b))
             (f z)
             (scale (IZR (Zpos N)) (add (fp := exact_arith) a b)).
Proof.
  intros Hu Hrnd.
  rewrite total_bz_pointwise. cbn [py_int bind].
  eexists. split; [reflexivity|].
  intros z. cbv zeta beta.
  rewrite Z2Nat.inj_pos.
  rewrite <- (positive_nat_Z N), <- INR_IZR_INZ.
  destruct (Pos2Nat.is_succ N) as [n Hn]. rewrite Hn.
  generalize (bz_from_loop I R (half (- s)) z) (bz_from_loop I R (half s) z).
  intros a b.
  destruct a as [x|]; [destruct b as [y|]|].
  - destruct (accumulate_error u Hu Hrnd (S n) x y) as (v & Hv & Ev).
    change (Some x) with (fin x). change (Some y) with (fin y).
    rewrite Hv.
    cbn [within scale option_map add lift2 rnd exact_arith fin magnitude].
    exact Ev.
  - rewrite accumulate_nonfinite by now right. constructor.
  - rewrite accumulate_nonfinite by now left. constructor.
Qed.

Lemma accumulation_error_bound_binary64 :
  exists f : real -> value,
    total_bz (fp := binary64) [0; 1 / 10] (1 / 10) (Int 10) (1 / 20) 1 =
    Returns (map f [0; 1 / 10]) /\
    forall z : real,
      let a := bz_from_loop (fp := binary64) 1 (1 / 20)
                 (half (fp := binary64) (- (1 / 10))) z in
      let b := bz_from_loop (fp := binary64) 1 (1 / 20)
                 (half (fp := binary64) (1 / 10)) z in
      within (growth (powerRZ 2 (- 53)) (Pos.to_nat 10) * 10
              * (magnitude a + magnitude b))
             (f z)
             (scale 10 (add (fp := exact_arith) a b)).
Proof.
  apply (accumulation_error_bound binary64 (powerRZ 2 (- 53))
           [0; 1 / 10] (1 / 10) 10 (1 / 20) 1).
  - apply powerRZ_le. lra.
  - intros x. apply round_binary_error.
Defined.

(** X7.  Under a rounding that is odd and has relative error at most [u],
    the curve on the mirrored grid agrees with the curve on the grid within
    2 ((1+u)^(2N) - 1) N (|a| + |b|) at each point: the symmetry of the
    field survives rounding up to the order in which the loop adds the two
    coils. *)
Theorem mirror_error_bound (fp : Arith) (u : real) (zs : list real)
    (s : real) (n : Z) (R I : real) :
  0 <= u ->
  (forall x : real, Rabs (rnd x - x) <= u * Rabs x) ->
  (forall x : real, rnd (- x) = - rnd x) ->
  exists f f' : real -> value,
    total_bz zs s (Int n) R I = Returns (map f zs) /\
    total_bz (map Ropp zs) s (Int n) R I = Returns (map f' zs) /\
    forall z : real,
      within (mirror_tolerance u (Z.to_nat n)
                (bz_from_loop I R (half (- s)) z)
                (bz_from_loop I R (half s) z))
             (f z) (f' z).
Proof.
  intros Hu Hrnd Hodd. now apply total_bz_even_rounded.
Qed.

Lemma mirror_error_bound_binary64 :
  exists f f' : real -> value,
    total_bz (fp := binary64) [0; 1 / 10] (1 / 10) (Int 10) (1 / 20) 1 =
    Returns (map f [0; 1 / 10]) /\
    total_bz (fp := binary64) (map Ropp [0; 1 / 10]) (1 / 10) (Int 10)
      (1 / 20) 1 = Returns (map f' [0; 1 / 10]) /\
    forall z : real,
      within (mirror_tolerance (powerRZ 2 (- 53)) (Z.to_nat 10)
                (bz_from_loop (fp := binary64) 1 (1 / 20)
                   (half (fp := binary64) (- (1 / 10))) z)
                (bz_from_loop (fp := binary64) 1 (1 / 20)
                   (half (fp := binary64) (1 / 10)) z))
             (f z) (f' z).
Proof.
  apply (mirror_error_bound binary64 (powerRZ 2 (- 53))
           [0; 1 / 10] (1 / 10) 10 (1 / 20) 1).
  - apply powerRZ_le. lra.
  - intros x. apply round_binary_error.
  - intros x. apply round_binary_opp.
Defined.

(** * Further properties in exact arithmetic *)

(** Throughout this section the arithmetic is [exact_arith]. *)

Section FurtherExact.

#[local] Existing Instance exact_arith.

Lemma pow_3_2_square (r : R) : pow_3_2 (r ^ 2) = Rabs r ^ 3.
Proof.
  unfold pow_3_2. replace (r ^ 2) with (Rsqr r) by (unfold Rsqr; ring).
  now rewrite sqrt_Rsqr_abs.
Qed.

Lemma pow_3_2_le (x y : R) : 0 <= x -> x <= y -> pow_3_2 x <= pow_3_2 y.
Proof.
  intros Hx [Hlt | ->]; [|lra].
  left. now apply pow_3_2_lt.
Qed.

Lemma Rabs_cube_pos (r : R) : r <> 0 -> 0 < Rabs r ^ 3.
Proof. intros Hr. apply pow_lt, Rabs_pos_lt, Hr. Qed.

(** The field of a loop of non-zero radius is finite. *)
Lemma axial_field_nonzero_radius (I R z0 z : real) :
  R <> 0 ->
  axial_field I R z0 z =
  fin (mu0 * I * R ^ 2 / (2 * pow_3_2 (R ^ 2 + (z - z0) ^ 2))).
Proof.
  intros HR.
  replace (R ^ 2) with ((- R) ^ 2) by ring.
  destruct (Rlt_dec 0 R) as [Hp|Hn].
  - replace ((- R) ^ 2) with (R ^ 2) by ring.
    now apply axial_field_finite.
  - rewrite <- (axial_field_finite I (- R) z0 z) by lra.
    unfold axial_field. now replace ((- R) ^ 2) with (R ^ 2) by ring.
Qed.

(** The value of the formula is bounded by its value at the centre, and has
    the sign of the current. *)
Lemma axial_value_bounds (I R d : real) :
  R <> 0 ->
  Rabs (mu0 * I * R ^ 2 / (2 * pow_3_2 (R ^ 2 + d ^ 2))) <=
  mu0 * Rabs I / (2 * Rabs R) /\
  (0 < I -> 0 < mu0 * I * R ^ 2 / (2 * pow_3_2 (R ^ 2 + d ^ 2))).
Proof.
  intros HR.
  assert (HA : 0 < Rabs R) by apply Rabs_pos_lt, HR.
  assert (HA3 : 0 < Rabs R ^ 3) by apply Rabs_cube_pos, HR.
  assert (HR2 : R ^ 2 = Rabs R ^ 2) by (symmetry; apply pow2_abs).
  assert (HR2pos : 0 < R ^ 2) by (rewrite HR2; apply pow_lt, HA).
  pose proof mu0_pos as Hmu.
  set (p := pow_3_2 (R ^ 2 + d ^ 2)).
  assert (Hp : Rabs R ^ 3 <= p).
  { unfold p. rewrite <- pow_3_2_square. apply pow_3_2_le; [lra|].
    pose proof (pow2_ge_0 d). lra. }
  assert (Hp0 : 0 < p) by lra.
  split.
  - unfold Rdiv. rewrite !Rabs_mult, Rabs_inv.
    rewrite (Rabs_pos_eq mu0) by lra.
    rewrite (Rabs_pos_eq (R ^ 2)) by lra.
    rewrite (Rabs_pos_eq (2 * p)) by lra.
    rewrite HR2.
    replace (mu0 * Rabs I * / (2 * Rabs R))
      with (mu0 * Rabs I * Rabs R ^ 2 * / (2 * Rabs R ^ 3)) by (field; lra).
    apply Rmult_le_compat_l.
    + pose proof (Rabs_pos I). pose proof (pow_le (Rabs R) 2).
      apply Rmult_le_pos; [apply Rmult_le_pos|]; lra.
    + apply Rinv_le_contravar; lra.
  - intros HI. apply Rdiv_lt_0_compat; [|lra].
    apply Rmult_lt_0_compat; [apply Rmult_lt_0_compat|]; lra.
Qed.

(** X8.  At the centre of a loop of non-zero radius the field is
    mu0 I / (2 |R|), and nowhere is its magnitude larger. *)
Theorem loop_field_peak (I R z0 z : real) :
  R <> 0 ->
  bz_from_loop I R z0 z0 = fin (mu0 * I / (2 * Rabs R)) /\
  exists b,
    bz_from_loop I R z0 z = fin b /\
    Rabs b <= mu0 * Rabs I / (2 * Rabs R).
Proof.
  intros HR.
  assert (HA : 0 < Rabs R) by apply Rabs_pos_lt, HR.
  split.
  - rewrite bz_from_loop_exact, axial_field_nonzero_radius by exact HR.
    replace (R ^ 2 + (z0 - z0) ^ 2) with (R ^ 2) by ring.
    rewrite pow_3_2_square, <- (pow2_abs R). apply f_equal. field. lra.
  - rewrite bz_from_loop_exact, axial_field_nonzero_radius by exact HR.
    eexists. split; [reflexivity|].
    now apply axial_value_bounds.
Qed.

Lemma loop_field_peak_example :
  bz_from_loop (fp := exact_arith) 1 (1 / 20) 0 0 =
  fin (mu0 * 1 / (2 * Rabs (1 / 20))) /\
  exists b,
    bz_from_loop (fp := exact_arith) 1 (1 / 20) 0 (1 / 10) = fin b /\
    Rabs b <= mu0 * Rabs 1 / (2 * Rabs (1 / 20)).
Proof.
  apply (loop_field_peak 1 (1 / 20) 0 (1 / 10)). lra.
Defined.

(** X9.  A zero radius is not rejected.  In exact arithmetic, on an array of
    positions (where the division is numpy's, which gives a NaN and raises
    nothing), the loop gives the field 0 at every position but its own
    centre, where the quotient is 0/0 and the sample a NaN; so the curve of
    the pair is 0 except at the samples that lie at [-s/2] or at [+s/2], the
    centres of the two coils, where it is a NaN. *)
Theorem zero_radius_field (I z0 s : real) (zs : list real) (N : positive) :
  bz_from_loop_array I 0 z0 zs =
  map (fun z => if Req_dec_T z z0 then None else fin 0) zs /\
  total_bz zs s (Int (Zpos N)) 0 I =
  Returns (map (fun z => if Req_dec_T z (- s / 2) then None
                         else if Req_dec_T z (s / 2) then None
                         else fin 0) zs).
Proof.
  assert (Hoff : forall c x : real, x <> c -> axial_field I 0 c x = fin 0).
  { intros c x Hx. unfold axial_field, quotient.
    assert (0 < pow_3_2 (0 ^ 2 + (x - c) ^ 2)).
    { apply pow_3_2_pos.
      assert (0 < (x - c) ^ 2)
        by (rewrite <- Rsqr_pow2; apply Rsqr_pos_lt; lra).
      lra. }
    destruct (Req_dec_T _ 0) as [E|E]; [lra|].
    apply f_equal. unfold Rdiv. ring. }
  assert (Hon : forall c : real, axial_field I 0 c c = None).
  { intros c. unfold axial_field, quotient.
    replace (0 ^ 2 + (c - c) ^ 2) with 0 by ring.
    rewrite pow_3_2_0.
    destruct (Req_dec_T _ 0) as [E|E]; [reflexivity|lra]. }
  split.
  - unfold bz_from_loop_array. apply map_ext. intros z.
    rewrite bz_from_loop_exact.
    destruct (Req_dec_T z z0) as [->|Hz]; [apply Hon | now apply Hoff].
  - rewrite total_bz_exact. cbn [py_int bind].
    apply f_equal, map_ext. intros z.
    rewrite accumulate_positive.
    destruct (Req_dec_T z (- s / 2)) as [->|H1].
    + now rewrite Hon.
    + destruct (Req_dec_T z (s / 2)) as [->|H2].
      * rewrite Hon.
        now destruct (axial_field I 0 (- s / 2) (s / 2)).
      * rewrite !Hoff by assumption.
        cbn [add lift2 scale option_map fin rnd exact_arith].
        now replace (IZR (Zpos N) * (0 + 0)) with 0 by ring.
Qed.

(** Three samples with the initial spacing and turn count: the two at the
    coils are NaN, the one between them is 0. *)
Lemma zero_radius_field_example :
  total_bz (fp := exact_arith) [- (1 / 20); 0; 1 / 20] (1 / 10) (Int 10) 0 1 =
  Returns [None; fin 0; None].
Proof.
  rewrite (proj2 (zero_radius_field 1 0 (1 / 10) [- (1 / 20); 0; 1 / 20] 10)).
  cbn [map].
  repeat match goal with
         | |- context [Req_dec_T ?a ?b] => destruct (Req_dec_T a b); try lra
         end.
  reflexivity.
Defined.

Lemma axial_field_linear (k I R z0 z : real) :
  axial_field (k * I) R z0 z = scale k (axial_field I R z0 z).
Proof.
  unfold axial_field, quotient.
  destruct (Req_dec_T _ 0) as [E|E]; [reflexivity|].
  cbn [scale option_map]. apply f_equal. unfold Rdiv. ring.
Qed.

Lemma add_scale (k : R) (a b : value) :
  add (scale k a) (scale k b) = scale k (add a b).
Proof.
  destruct a as [x|], b as [y|];
    cbn [scale option_map add lift2 rnd exact_arith]; try reflexivity.
  apply f_equal. ring.
Qed.

Lemma accumulate_linear (k : R) (n : nat) (a b : value) :
  accumulate n (scale k a) (scale k b) = scale k (accumulate n a b).
Proof.
  unfold accumulate. induction n as [|n IH].
  - simpl. unfold fin. apply f_equal. ring.
  - rewrite !Nat.iter_succ, IH. now rewrite !add_scale.
Qed.

(** X10.  In exact arithmetic the curve is linear in the current: scaling
    the current by any real factor [k] (zero and negative factors included)
    scales every sample by [k]. *)
Theorem total_bz_linear_in_current (zs : list real) (s : real) (t : number)
    (R I k : real) :
  total_bz zs s t R (k * I) =
  bz <- total_bz zs s t R I ;; Returns (map (scale k) bz).
Proof.
  rewrite !total_bz_exact.
  destruct (py_int t) as [n|]; cbn [bind]; [|reflexivity].
  apply f_equal. rewrite map_map. apply map_ext. intros z.
  now rewrite !axial_field_linear, accumulate_linear.
Qed.

(** X11.  With a non-zero radius and at least one turn, every sample is
    finite, has the sign of the current (here: positive for a positive
    current) and is at most N mu0 I / |R|. *)
Theorem total_bz_positive_bounded (z s R I : real) (N : positive) :
  R <> 0 -> 0 < I ->
  exists b,
    total_bz [z] s (Int (Zpos N)) R I = Returns [fin b] /\
    0 < b <= IZR (Zpos N) * (mu0 * I / Rabs R).
Proof.
  intros HR HI.
  assert (HA : 0 < Rabs R) by apply Rabs_pos_lt, HR.
  assert (HN : 0 < IZR (Zpos N)) by (apply IZR_lt; lia).
  assert (HR2 : 0 < R ^ 2)
    by (rewrite <- Rsqr_pow2; apply Rsqr_pos_lt, HR).
  pose proof mu0_pos as Hmu.
  rewrite total_bz_exact. cbn [py_int bind map].
  rewrite accumulate_positive.
  assert (Hone : forall c : real, exists a,
             axial_field I R c z = fin a /\
             0 < a <= mu0 * I / (2 * Rabs R)).
  { intros c. rewrite axial_field_nonzero_radius by exact HR.
    eexists. split; [reflexivity|].
    destruct (axial_value_bounds I R (z - c) HR) as [Hb Hpos].
    specialize (Hpos HI).
    rewrite (Rabs_pos_eq I) in Hb by lra.
    rewrite Rabs_pos_eq in Hb by lra. lra. }
  destruct (Hone (- s / 2)) as (a1 & E1 & [P1 B1]).
  destruct (Hone (s / 2)) as (a2 & E2 & [P2 B2]).
  rewrite E1, E2.
  cbn [add lift2 scale option_map fin rnd exact_arith].
  eexists. split; [reflexivity|].
  split.
  - apply Rmult_lt_0_compat; lra.
  - apply Rmult_le_compat_l; [lra|].
    replace (mu0 * I / Rabs R)
      with (mu0 * I / (2 * Rabs R) + mu0 * I / (2 * Rabs R))
      by (field; lra).
    lra.
Qed.

Lemma total_bz_positive_bounded_example :
  exists b,
    total_bz (fp := exact_arith) [0] (1 / 10) (Int 10) (1 / 20) 1 =
    Returns [fin b] /\
    0 < b <= 10 * (mu0 * 1 / Rabs (1 / 20)).
Proof.
  apply (total_bz_positive_bounded 0 (1 / 10) (1 / 20) 1 10); lra.
Defined.

(** X12.  In exact arithmetic a negative spacing only swaps the two coils:
    the curve for [-s] is the curve for [s]. *)
Theorem spacing_sign_is_ignored (zs : list real) (s : real) (t : number)
    (R I : real) :
  total_bz zs (- s) t R I = total_bz zs s t R I.
Proof.
  rewrite !total_bz_exact.
  destruct (py_int t) as [n|]; cbn [bind]; [|reflexivity].
  apply f_equal, map_ext. intros z.
  rewrite accumulate_swap.
  now replace (- - s / 2) with (s / 2) by lra.
Qed.

(** X13.  With spacing 0 the two coils coincide, and the curve is 2 N times
    the field of one loop at the origin. *)
Theorem zero_spacing_doubles_loop (zs : list real) (N : positive)
    (R I : real) :
  total_bz zs 0 (Int (Zpos N)) R I =
  Returns (map (fun z => scale (2 * IZR (Zpos N)) (bz_from_loop I R 0 z)) zs).
Proof.
  rewrite total_bz_exact. cbn [py_int bind].
  apply f_equal, map_ext. intros z.
  rewrite accumulate_positive, bz_from_loop_exact.
  replace (- 0 / 2) with 0 by lra. replace (0 / 2) with 0 by lra.
  destruct (axial_field I R 0 z) as [a|];
    cbn [add lift2 scale option_map rnd exact_arith]; [|reflexivity].
  apply f_equal. ring.
Qed.

(** X14.  On the grid of the script the curve reads the same backwards,
    whatever the parameters: sample [i] equals sample [999 - i]. *)
Theorem script_curve_is_palindrome (s : real) (t : number) (R I : real) :
  total_bz Script.z s t R I =
  bz <- total_bz Script.z s t R I ;; Returns (rev bz).
Proof.
  destruct (total_bz Script.z s t R I) as [bz|] eqn:Hbz; cbn [bind];
    [|reflexivity].
  apply f_equal. symmetry. eapply curve_palindrome, Hbz.
Qed.

End FurtherExact.

(** * The sliders and the reset button (any rounding) *)

Section GuiProperties.
Context {fp : Arith}.

Lemma total_bz_float_returns (zs : list real) (s t R I : real) :
  total_bz zs s (Float (fin t)) R I =
  Returns (map (fun z => accumulate (Z.to_nat (trunc t))
                           (bz_from_loop I R (half (- s)) z)
                           (bz_from_loop I R (half s) z)) zs).
Proof. now rewrite total_bz_pointwise. Qed.

Lemma get_put_same (c : Gui.control) (sl : Gui.slider) (st : Gui.state) :
  Gui.get c (Gui.put c sl st) = sl.
Proof. now destruct c. Qed.

Lemma get_put_other (c c' : Gui.control) (sl : Gui.slider) (st : Gui.state) :
  c' <> c -> Gui.get c' (Gui.put c sl st) = Gui.get c' st.
Proof. destruct c, c'; intros H; try reflexivity; now destruct H. Qed.

Lemma with_val_same (sl : Gui.slider) : Gui.with_val sl (Gui.val sl) = sl.
Proof. now destruct sl. Qed.

(** [update] never raises; it leaves the sliders alone and makes the plot
    and [params] agree with them. *)
Lemma update_spec (st : Gui.state) :
  exists st',
    Gui.update st = Returns st' /\
    (forall c, Gui.get c st' = Gui.get c st) /\
    Gui.consistent st' /\
    Gui.updates st' = S (Gui.updates st).
Proof.
  unfold Gui.update. cbn [Params.spacing Params.turns Params.R Params.I].
  rewrite total_bz_float_returns. cbn [bind].
  eexists. split; [reflexivity|]. split; [now intros [] |].
  split; [|reflexivity].
  unfold Gui.consistent, Gui.shown.
  cbn [Gui.spacing_slider Gui.turns_slider Gui.radius_slider
       Gui.current_slider Gui.params Gui.ydata
       Params.spacing Params.turns Params.R Params.I py_int fin].
  rewrite total_bz_float_returns. repeat split; reflexivity.
Qed.

Lemma set_val_spec (c : Gui.control) (v : real) (st : Gui.state) :
  exists st',
    Gui.set_val c v st = Returns st' /\
    Gui.get c st' = Gui.with_val (Gui.get c st) v /\
    (forall c', c' <> c -> Gui.get c' st' = Gui.get c' st) /\
    Gui.consistent st' /\
    Gui.updates st' = S (Gui.updates st).
Proof.
  unfold Gui.set_val.
  destruct (update_spec (Gui.put c (Gui.with_val (Gui.get c st) v) st))
    as (st' & Hu & Hs & Hc & Hn).
  exists st'. split; [exact Hu|].
  split; [now rewrite Hs, get_put_same|].
  split; [intros c' Hc'; now rewrite Hs, get_put_other|].
  split; [exact Hc|].
  rewrite Hn. now destruct c.
Qed.

(** 1 when slider [c] is off its initial value, 0 otherwise. *)
Definition off (c : Gui.control) (st : Gui.state) : nat :=
  if Req_dec_T (Gui.val (Gui.get c st)) (Gui.valinit (Gui.get c st))
  then 0 else 1.

Lemma off_initial_sum (st : Gui.state) :
  Gui.off_initial st =
  (off Gui.Spacing st + off Gui.Turns st + off Gui.Radius st
   + off Gui.Current st)%nat.
Proof.
  unfold Gui.off_initial, off. cbn [filter].
  repeat destruct (Req_dec_T _ _); reflexivity.
Qed.

Lemma off_same_slider (c : Gui.control) (st st' : Gui.state) :
  Gui.get c st' = Gui.get c st -> off c st' = off c st.
Proof. unfold off. now intros ->. Qed.

Lemma slider_reset_spec (c : Gui.control) (st : Gui.state) :
  exists st',
    Gui.slider_reset c st = Returns st' /\
    Gui.get c st' = Gui.with_val (Gui.get c st) (Gui.valinit (Gui.get c st)) /\
    (forall c', c' <> c -> Gui.get c' st' = Gui.get c' st) /\
    (Gui.consistent st -> Gui.consistent st') /\
    Gui.updates st' = (Gui.updates st + off c st)%nat.
Proof.
  unfold Gui.slider_reset, off.
  destruct (Req_dec_T _ _) as [E|E].
  - exists st. split; [reflexivity|].
    split; [now rewrite <- E, with_val_same|].
    split; [reflexivity|]. split; [tauto | lia].
  - destruct (set_val_spec c (Gui.valinit (Gui.get c st)) st)
      as (st' & H1 & H2 & H3 & H4 & H5).
    exists st'. split; [exact H1|]. split; [exact H2|].
    split; [exact H3|]. split; [intros _; exact H4 | lia].
Qed.

Lemma reset_spec (st : Gui.state) :
  exists st',
    Gui.reset st = Returns st' /\
    (forall c, Gui.get c st' =
               Gui.with_val (Gui.get c st) (Gui.valinit (Gui.get c st))) /\
    (Gui.consistent st -> Gui.consistent st') /\
    Gui.updates st' = (Gui.updates st + Gui.off_initial st)%nat.
Proof.
  unfold Gui.reset.
  destruct (slider_reset_spec Gui.Spacing st) as (s1 & E1 & G1 & O1 & C1 & N1).
  destruct (slider_reset_spec Gui.Turns s1) as (s2 & E2 & G2 & O2 & C2 & N2).
  destruct (slider_reset_spec Gui.Radius s2) as (s3 & E3 & G3 & O3 & C3 & N3).
  destruct (slider_reset_spec Gui.Current s3) as (s4 & E4 & G4 & O4 & C4 & N4).
  rewrite E1. cbn [bind]. rewrite E2. cbn [bind]. rewrite E3. cbn [bind].
  exists s4. split; [exact E4|]. split; [|split; [tauto|]].
  - intros [].
    + rewrite O4, O3, O2, G1 by discriminate. reflexivity.
    + rewrite O4, O3, G2, O1 by discriminate. reflexivity.
    + rewrite O4, G3, O2, O1 by discriminate. reflexivity.
    + rewrite G4, O3, O2, O1 by discriminate. reflexivity.
  - rewrite off_initial_sum, N4, N3, N2, N1.
    rewrite (off_same_slider Gui.Turns st s1) by (apply O1; discriminate).
    rewrite (off_same_slider Gui.Radius st s2)
      by (rewrite O2, O1 by discriminate; reflexivity).
    rewrite (off_same_slider Gui.Current st s3)
      by (rewrite O3, O2, O1 by discriminate; reflexivity).
    lia.
Qed.

Lemma reset_at_initial (st : Gui.state) :
  (forall c, Gui.val (Gui.get c st) = Gui.valinit (Gui.get c st)) ->
  Gui.reset st = Returns st.
Proof.
  intros H. unfold Gui.reset, Gui.slider_reset.
  destruct (Req_dec_T _ _) as [_|E]; [|now destruct E; apply H]. cbn [bind].
  destruct (Req_dec_T _ _) as [_|E]; [|now destruct E; apply H]. cbn [bind].
  destruct (Req_dec_T _ _) as [_|E]; [|now destruct E; apply H]. cbn [bind].
  destruct (Req_dec_T _ _) as [_|E]; [|now destruct E; apply H].
  reflexivity.
Qed.

(** X15.  Pressing reset twice is pressing it once: after a reset every
    slider holds its initial value, and a second reset changes nothing and
    recomputes nothing. *)
Theorem reset_is_idempotent (st : Gui.state) :
  (st' <- Gui.reset st ;; Gui.reset st') = Gui.reset st.
Proof.
  destruct (reset_spec st) as (st' & E & G & _).
  rewrite E. cbn [bind]. apply reset_at_initial.
  intros c. now rewrite G.
Qed.

(** X16.  A reset runs [update], and so recomputes the whole curve, once for
    every slider that is off its initial value: up to four times, and not at
    all when every slider is at its initial value. *)
Theorem reset_recomputes_per_slider (st : Gui.state) :
  exists st',
    Gui.reset st = Returns st' /\
    Gui.updates st' = (Gui.updates st + Gui.off_initial st)%nat /\
    (Gui.off_initial st <= 4)%nat /\
    Gui.off_initial st' = 0%nat.
Proof.
  destruct (reset_spec st) as (st' & E & G & _ & N).
  exists st'. split; [exact E|]. split; [exact N|]. split.
  - rewrite off_initial_sum. unfold off.
    repeat destruct (Req_dec_T _ _); lia.
  - rewrite off_initial_sum. unfold off. rewrite !G. cbn [Gui.with_val Gui.val Gui.valinit].
    repeat (destruct (Req_dec_T _ _) as [_|E']; [|now destruct E']).
    reflexivity.
Qed.

End GuiProperties.

(** * The script as a whole (exact arithmetic) *)

(** Throughout this section the arithmetic is [exact_arith]. *)

Section GuiExact.

#[local] Existing Instance exact_arith.

Lemma is_integer_IZR (k : Z) : is_integer (IZR k).
Proof.
  unfold is_integer. now rewrite <- (Int_part_spec (IZR k) k) by lra.
Qed.

Lemma value_in_bounds_range (lo hi : real) (step : option real) (x : real) :
  lo <= hi -> lo <= Gui.value_in_bounds lo hi step x <= hi.
Proof.
  intros H. unfold Gui.value_in_bounds.
  destruct (Rle_dec _ lo); [lra|].
  destruct (Rle_dec hi _); lra.
Qed.

(** A slider with step 1 from [valmin = 1] holds whole numbers only. *)
Lemma value_in_bounds_integer (x : real) :
  is_integer (Gui.value_in_bounds 1 50 (Some 1) x).
Proof.
  unfold Gui.value_in_bounds, Gui.stepped_value. cbn [rnd exact_arith].
  destruct (Rle_dec _ 1); [apply (is_integer_IZR 1)|].
  destruct (Rle_dec 50 _); [apply (is_integer_IZR 50)|].
  replace (1 + IZR (nearest_even ((x - 1) / 1)) * 1)
    with (IZR (1 + nearest_even ((x - 1) / 1))) by (rewrite plus_IZR; ring).
  apply is_integer_IZR.
Qed.

(** In exact arithmetic the initial values lie within the bounds, so the
    sliders start at them. *)
Lemma initial_slider_exact (c : Gui.control) :
  Gui.initial_slider c =
  match c with
  | Gui.Spacing =>
      {| Gui.valmin := 0.01; Gui.valmax := 0.2; Gui.valstep := None;
         Gui.valinit := 0.1; Gui.val := 0.1 |}
  | Gui.Turns =>
      {| Gui.valmin := 1; Gui.valmax := 50; Gui.valstep := Some 1;
         Gui.valinit := 10; Gui.val := 10 |}
  | Gui.Radius =>
      {| Gui.valmin := 0.01; Gui.valmax := 0.1; Gui.valstep := None;
         Gui.valinit := 0.05; Gui.val := 0.05 |}
  | Gui.Current =>
      {| Gui.valmin := 0.1; Gui.valmax := 10; Gui.valstep := None;
         Gui.valinit := 1; Gui.val := 1 |}
  end.
Proof.
  destruct c; unfold Gui.initial_slider, Gui.Slider, Gui.value_in_bounds,
    Gui.stepped_value, Script.init_spacing, Script.init_radius,
    Script.init_current, literal; cbn [rnd exact_arith].
  - destruct (Rle_dec 0.1 0.01); [lra|].
    destruct (Rle_dec 0.2 0.1); [lra|]. reflexivity.
  - replace ((10 - 1) / 1) with (IZR 9) by lra.
    rewrite nearest_even_IZR.
    replace (1 + 9 * 1) with 10 by lra.
    destruct (Rle_dec 10 1); [lra|].
    destruct (Rle_dec 50 10); [lra|]. reflexivity.
  - destruct (Rle_dec 0.05 0.01); [lra|].
    destruct (Rle_dec 0.1 0.05); [lra|]. reflexivity.
  - replace 1.0 with 1 by lra.
    destruct (Rle_dec 1 0.1); [lra|].
    destruct (Rle_dec 10 1); [lra|]. reflexivity.
Qed.

Lemma initial_slider_bounds (c : Gui.control) :
  Gui.valmin (Gui.initial_slider c) <= Gui.valmax (Gui.initial_slider c) /\
  Gui.valmin (Gui.initial_slider c) <= Gui.valinit (Gui.initial_slider c)
    <= Gui.valmax (Gui.initial_slider c) /\
  Gui.val (Gui.initial_slider c) = Gui.valinit (Gui.initial_slider c).
Proof.
  rewrite initial_slider_exact.
  destruct c; cbn [Gui.valmin Gui.valmax Gui.valinit Gui.val];
    repeat split; lra.
Qed.

(** What every state the user can reach satisfies. *)
Definition reachable_invariant (st : Gui.state) : Prop :=
  Gui.consistent st /\ Gui.in_range st /\
  is_integer (Gui.val (Gui.turns_slider st)).

Lemma start_invariant :
  exists st, Gui.start = Returns st /\ reachable_invariant st /\
             Script.bz = Returns (Gui.ydata st) /\
             forall c, Gui.get c st = Gui.initial_slider c.
Proof.
  unfold Gui.start.
  assert (Hbz : Script.bz =
                total_bz Script.z 0.1 (Float (fin 10)) 0.05 1).
  { unfold Script.bz, Script.init_spacing, Script.init_turns,
      Script.init_radius, Script.init_current, literal.
    cbn [rnd exact_arith]. replace 1.0 with 1 by lra.
    unfold total_bz. cbn [py_int fin bind].
    now rewrite (trunc_IZR 10). }
  rewrite Hbz, total_bz_float_returns. cbn [bind].
  eexists. split; [reflexivity|].
  split; [|split; [reflexivity | now intros []]].
  split; [|split].
  - unfold Gui.consistent, Gui.shown.
    cbn [Gui.spacing_slider Gui.turns_slider Gui.radius_slider
         Gui.current_slider Gui.params Gui.ydata
         Params.spacing Params.turns Params.R Params.I].
    rewrite !initial_slider_exact. cbn [Gui.val].
    rewrite total_bz_float_returns.
    unfold Script.init_spacing, Script.init_turns, Script.init_radius,
      Script.init_current, literal.
    cbn [rnd exact_arith py_int]. rewrite (trunc_IZR 10).
    repeat split; try reflexivity. lra.
  - intros c. destruct (initial_slider_bounds c) as (_ & Hb & Hv).
    destruct c;
      cbn [Gui.get Gui.spacing_slider Gui.turns_slider Gui.radius_slider
           Gui.current_slider];
      (split; [now rewrite with_val_same | rewrite Hv; exact Hb]).
  - cbn [Gui.turns_slider]. rewrite initial_slider_exact. cbn [Gui.val].
    apply (is_integer_IZR 10).
Qed.

Lemma control_eq_dec (a b : Gui.control) : {a = b} + {a <> b}.
Proof. decide equality. Defined.

Lemma in_range_slider (c : Gui.control) (st : Gui.state) :
  Gui.in_range st ->
  Gui.valmin (Gui.get c st) = Gui.valmin (Gui.initial_slider c) /\
  Gui.valmax (Gui.get c st) = Gui.valmax (Gui.initial_slider c) /\
  Gui.valstep (Gui.get c st) = Gui.valstep (Gui.initial_slider c) /\
  Gui.valinit (Gui.get c st) = Gui.valinit (Gui.initial_slider c).
Proof.
  intros H. destruct (H c) as [E _]. rewrite E. now repeat split.
Qed.

Lemma drag_invariant (c : Gui.control) (x : real) (st : Gui.state) :
  reachable_invariant st ->
  exists st', Gui.drag c x st = Returns st' /\ reachable_invariant st'.
Proof.
  intros (Hc & Hr & Hi). unfold Gui.drag.
  destruct (Req_dec_T _ _) as [E|E].
  { exists st. split; [reflexivity|]. exact (conj Hc (conj Hr Hi)). }
  destruct (in_range_slider c st Hr) as (Elo & Ehi & Estep & _).
  rewrite Elo, Ehi, Estep in *.
  set (v := Gui.value_in_bounds _ _ _ x) in *.
  destruct (set_val_spec c v st) as (st' & E1 & G & O & C & _).
  exists st'. split; [exact E1|]. split; [exact C|]. split.
  - intros c'. destruct (control_eq_dec c' c) as [->|Hne].
    + rewrite G. destruct (Hr c) as [Eg _]. rewrite Eg.
      cbn [Gui.with_val Gui.val Gui.valmin Gui.valmax Gui.valstep
           Gui.valinit].
      split; [reflexivity|].
      apply value_in_bounds_range.
      apply (initial_slider_bounds c).
    + rewrite (O c' Hne). apply Hr.
  - destruct (control_eq_dec Gui.Turns c) as [<-|Hne].
    + change (Gui.turns_slider st') with (Gui.get Gui.Turns st').
      rewrite G. cbn [Gui.with_val Gui.val]. unfold v.
      rewrite initial_slider_exact.
      cbn [Gui.valmin Gui.valmax Gui.valstep].
      apply value_in_bounds_integer.
    + change (Gui.turns_slider st') with (Gui.get Gui.Turns st').
      rewrite (O Gui.Turns Hne). exact Hi.
Qed.

Lemma reset_invariant (st : Gui.state) :
  reachable_invariant st ->
  exists st',
    Gui.reset st = Returns st' /\ reachable_invariant st' /\
    forall c, Gui.get c st' = Gui.initial_slider c.
Proof.
  intros (Hc & Hr & Hi).
  destruct (reset_spec st) as (st' & E & G & C & _).
  assert (Hall : forall c, Gui.get c st' = Gui.initial_slider c).
  { intros c. rewrite G.
    destruct (in_range_slider c st Hr) as (_ & _ & _ & Einit).
    rewrite Einit. destruct (Hr c) as [Eg _]. rewrite Eg.
    destruct (initial_slider_bounds c) as (_ & _ & Hv).
    rewrite <- Hv. cbn [Gui.with_val Gui.valmin Gui.valmax Gui.valstep
                        Gui.valinit].
    now destruct (Gui.initial_slider c). }
  exists st'. split; [exact E|]. split; [|exact Hall].
  split; [now apply C|]. split.
  - intros c. rewrite Hall.
    destruct (initial_slider_bounds c) as (_ & Hb & Hv).
    split; [now rewrite with_val_same|]. rewrite Hv. exact Hb.
  - change (Gui.turns_slider st') with (Gui.get Gui.Turns st').
    rewrite Hall, initial_slider_exact. cbn [Gui.val].
    apply (is_integer_IZR 10).
Qed.

Lemma run_invariant (es : list Gui.event) :
  forall st, reachable_invariant st ->
  exists st', Gui.run es st = Returns st' /\ reachable_invariant st'.
Proof.
  induction es as [|e es IH]; intros st Hinv; cbn [Gui.run].
  - now exists st.
  - assert (Hstep : exists st1, Gui.handle st e = Returns st1 /\
                                reachable_invariant st1).
    { destruct e as [c x|]; cbn [Gui.handle].
      - now apply drag_invariant.
      - destruct (reset_invariant st Hinv) as (st1 & E & H & _).
        now exists st1. }
    destruct Hstep as (st1 & E1 & H1). rewrite E1. cbn [bind].
    now apply IH.
Qed.

Lemma reachable (es : list Gui.event) :
  exists st,
    (st0 <- Gui.start ;; Gui.run es st0) = Returns st /\
    reachable_invariant st.
Proof.
  destruct start_invariant as (st0 & E0 & H0 & _).
  rewrite E0. cbn [bind]. now apply run_invariant.
Qed.

(** X17.  Whatever the user does (any sequence of drags and resets), no
    callback raises, [params] holds the values the sliders show, and the
    plotted line is [total_bz] of exactly those values; every slider stays
    within its bounds. *)
Theorem display_follows_sliders (es : list Gui.event) :
  exists st,
    (st0 <- Gui.start ;; Gui.run es st0) = Returns st /\
    Gui.consistent st /\ Gui.in_range st.
Proof.
  destruct (reachable es) as (st & E & Hc & Hr & _).
  now exists st.
Qed.

(** X18.  After a reset, whatever happened before it, the sliders are as
    the script created them, [params] holds the initial values (the turn
    count as the float 10.0, which [int] turns into the initial 10), and
    the plotted line is the curve first plotted. *)
Theorem reset_restores_initial_curve (es : list Gui.event) :
  exists st,
    (st0 <- Gui.start ;; st1 <- Gui.run es st0 ;; Gui.reset st1)
      = Returns st /\
    (forall c, Gui.get c st = Gui.initial_slider c) /\
    Script.bz = Returns (Gui.ydata st) /\
    Params.spacing (Gui.params st) = Script.init_spacing /\
    py_int (Params.turns (Gui.params st)) = py_int Script.init_turns /\
    Params.R (Gui.params st) = Script.init_radius /\
    Params.I (Gui.params st) = Script.init_current.
Proof.
  destruct start_invariant as (st0 & E0 & H0 & Hbz & Hs0).
  destruct (run_invariant es st0 H0) as (st1 & E1 & H1).
  destruct (reset_invariant st1 H1) as (st & E & (Hc & _ & _) & Hall).
  rewrite E0. cbn [bind]. rewrite E1. cbn [bind].
  exists st. split; [exact E|]. split; [exact Hall|].
  destruct Hc as (Hshown & Hp1 & Hp2 & Hp3 & Hp4).
  pose proof (Hall Gui.Spacing) as A1. pose proof (Hall Gui.Turns) as A2.
  pose proof (Hall Gui.Radius) as A3. pose proof (Hall Gui.Current) as A4.
  cbn [Gui.get] in A1, A2, A3, A4.
  unfold Gui.shown in Hshown.
  rewrite A1, A2, A3, A4 in *.
  destruct H0 as ((Hshown0 & _) & _).
  unfold Gui.shown in Hshown0.
  pose proof (Hs0 Gui.Spacing) as B1. pose proof (Hs0 Gui.Turns) as B2.
  pose proof (Hs0 Gui.Radius) as B3. pose proof (Hs0 Gui.Current) as B4.
  cbn [Gui.get] in B1, B2, B3, B4.
  rewrite B1, B2, B3, B4 in Hshown0.
  split; [rewrite Hbz; congruence|].
  rewrite Hp1, Hp2, Hp3, Hp4, !initial_slider_exact. cbn [Gui.val].
  unfold Script.init_spacing, Script.init_turns, Script.init_radius,
    Script.init_current, literal.
  cbn [rnd exact_arith py_int]. rewrite (trunc_IZR 10).
  repeat split; try reflexivity. lra.
Qed.

(** X19.  Every curve the program ever displays has 1000 samples, all finite
    and strictly positive: the bounds of the sliders keep the radius away
    from zero (no division by zero), the current positive and the turn count
    a whole number of at least one, of which [int] discards nothing. *)
Theorem displayed_curve_is_finite (es : list Gui.event) :
  exists st,
    (st0 <- Gui.start ;; Gui.run es st0) = Returns st /\
    length (Gui.ydata st) = 1000%nat /\
    Forall (fun v => exists b, v = fin b /\ 0 < b) (Gui.ydata st) /\
    IZR (trunc (Gui.val (Gui.turns_slider st))) =
      Gui.val (Gui.turns_slider st).
Proof.
  destruct (reachable es) as (st & E & (Hshown & _) & Hr & Hi).
  exists st. split; [exact E|].
  unfold Gui.shown in Hshown.
  destruct (Hr Gui.Turns) as [_ Ht]. destruct (Hr Gui.Radius) as [_ HR].
  destruct (Hr Gui.Current) as [_ HI].
  rewrite initial_slider_exact in Ht, HR, HI.
  cbn [Gui.get Gui.valmin Gui.valmax] in Ht, HR, HI.
  set (t := Gui.val (Gui.turns_slider st)) in *.
  set (R := Gui.val (Gui.radius_slider st)) in *.
  set (I := Gui.val (Gui.current_slider st)) in *.
  set (s := Gui.val (Gui.spacing_slider st)) in *.
  assert (Htr : trunc t = Int_part t) by (apply trunc_nonneg; lra).
  assert (Hint : IZR (trunc t) = t) by (rewrite Htr; exact Hi).
  assert (Hpos : (1 <= trunc t)%Z) by (apply le_IZR; lra).
  split; [eapply length_curve, Hshown|]. split; [|exact Hint].
  rewrite total_bz_exact in Hshown. cbn [py_int fin bind] in Hshown.
  injection Hshown as <-.
  apply Forall_forall. intros v Hv. apply in_map_iff in Hv.
  destruct Hv as (z & <- & _).
  destruct (trunc t) as [|p|p]; try lia.
  rewrite accumulate_positive.
  assert (HRne : R <> 0) by lra.
  rewrite !axial_field_nonzero_radius by exact HRne.
  cbn [add lift2 scale option_map fin rnd exact_arith].
  eexists. split; [reflexivity|].
  assert (HIpos : 0 < I) by lra.
  destruct (axial_value_bounds I R (z - - s / 2) HRne) as [_ P1].
  destruct (axial_value_bounds I R (z - s / 2) HRne) as [_ P2].
  specialize (P1 HIpos). specialize (P2 HIpos).
  apply Rmult_lt_0_compat; [apply IZR_lt; lia | lra].
Qed.

End GuiExact.

(** * What the binary64 numbers change

    The statements above read the floats as real numbers that are rounded.
    The runs below are those of the program on binary64 itself ([F64]),
    where a result can be subnormal, underflow to zero or overflow, and
    where Python raises. *)

Section Binary64.
Import PrimFloat.
#[local] Set Warnings "-inexact-float".
Local Open Scope float_scope.

(** Two floats with different bit patterns are different. *)
Ltac floats_differ :=
  let H := fresh in
  intros H; apply (f_equal FloatOps.Prim2SF) in H; vm_compute in H;
  discriminate H.

Lemma length_iadd (bz x : list float) :
  length x = length bz -> length (F64.iadd bz x) = length bz.
Proof.
  revert x. induction bz as [|b bz IH]; intros [|a x] Hlen;
    try discriminate Hlen; [reflexivity|].
  cbn [F64.iadd length]. f_equal. apply IH. now injection Hlen.
Qed.

(** [bz_from_loop] raises exactly when the square of the radius overflows;
    otherwise it returns an array as long as [z]. *)
Lemma bz_from_loop_outcome (I R z0 : float) (z : list float) :
  if F64.square_overflows R
  then F64.bz_from_loop I R z0 z = F64.Raises F64.OverflowError
  else exists b,
      F64.bz_from_loop I R z0 z = F64.Returns b /\ length b = length z.
Proof.
  unfold F64.bz_from_loop, F64.loop_denominator, F64.float_pow_2.
  destruct (F64.square_overflows R); cbn [F64.bind]; [reflexivity|].
  eexists. split; [reflexivity|]. now rewrite !length_map.
Qed.

Lemma total_bz_body_outcome (zs : list float) (s R I : float)
    (bz : list float) (n : Z) :
  length bz = length zs ->
  if F64.square_overflows R
  then F64.total_bz_body zs s R I bz n = F64.Raises F64.OverflowError
  else exists bz',
      F64.total_bz_body zs s R I bz n = F64.Returns bz' /\
      length bz' = length zs.
Proof.
  intros Hlen. unfold F64.total_bz_body.
  pose proof (bz_from_loop_outcome I R (- s / 2) zs) as H1.
  pose proof (bz_from_loop_outcome I R (s / 2) zs) as H2.
  destruct (F64.square_overflows R).
  - now rewrite H1.
  - destruct H1 as (b1 & -> & L1). destruct H2 as (b2 & -> & L2).
    cbn [F64.bind]. eexists. split; [reflexivity|].
    assert (L : length (F64.iadd bz b1) = length zs)
      by (rewrite length_iadd; congruence).
    rewrite length_iadd; congruence.
Qed.

Lemma for_each_outcome (zs : list float) (s R I : float) (l : list Z) :
  forall bz : list float,
    length bz = length zs ->
    match l with
    | [] =>
        F64.for_each l (F64.total_bz_body zs s R I) bz = F64.Returns bz
    | _ :: _ =>
        if F64.square_overflows R
        then F64.for_each l (F64.total_bz_body zs s R I) bz =
             F64.Raises F64.OverflowError
        else exists bz',
            F64.for_each l (F64.total_bz_body zs s R I) bz =
            F64.Returns bz' /\ length bz' = length zs
    end.
Proof.
  induction l as [|n l IH]; intros bz Hlen; [reflexivity|].
  cbn [F64.for_each].
  pose proof (total_bz_body_outcome zs s R I bz n Hlen) as Hb.
  destruct (F64.square_overflows R) eqn:Hov.
  - now rewrite Hb.
  - destruct Hb as (bz' & -> & Hlen'). cbn [F64.bind].
    specialize (IH bz' Hlen'). destruct l as [|m l].
    + rewrite IH. now exists bz'.
    + exact IH.
Qed.

(** C9.  [total_bz] checks none of its arguments, and for all floats - a
    radius or a spacing that is zero or negative, a turn count below one
    among them - it returns an array as long as the grid, with the
    exceptions that Python's own operations raise: [int(turns)] raises on a
    turn count that is a NaN or an infinity; and, when the loop runs at
    least once, [R**2] raises [OverflowError] for a finite radius whose
    square overflows.  With a turn count below one the loop does not run
    and the result is the array of zeros. *)
Theorem total_bz_raises_only_on_overflow (zs : list float) (s : float)
    (turns : F64.number) (R I : float) :
  match F64.py_int turns with
  | F64.Raises e => F64.total_bz zs s turns R I = F64.Raises e
  | F64.Returns n =>
      if (n <=? 0)%Z
      then F64.total_bz zs s turns R I = F64.Returns (F64.zeros_like zs)
      else if F64.square_overflows R
      then F64.total_bz zs s turns R I = F64.Raises F64.OverflowError
      else exists bz,
          F64.total_bz zs s turns R I = F64.Returns bz /\
          length bz = length zs
  end.
Proof.
  unfold F64.total_bz.
  destruct (F64.py_int turns) as [n|e]; cbn [F64.bind]; [|reflexivity].
  assert (Hz : length (F64.zeros_like zs) = length zs)
    by apply length_map.
  pose proof (for_each_outcome zs s R I (range n) _ Hz) as H.
  destruct (Z.leb_spec n 0) as [Hn|Hn].
  - rewrite (range_nonpos n Hn) in *. exact H.
  - unfold range in *. destruct (Z.to_nat n) as [|k] eqn:Hk; [lia|].
    exact H.
Qed.

(** Out-of-range calls: a negative radius, a zero radius with a negative
    spacing, and turn counts below one return arrays; a radius of 1e200
    raises. *)
Lemma total_bz_raises_only_on_overflow_example :
  (exists bz,
      F64.total_bz [0; 0.1] 0.1 (F64.Int 10) (-0.05) 1 = F64.Returns bz /\
      length bz = 2%nat) /\
  (exists bz,
      F64.total_bz [0; 0.1] (-0.1) (F64.Int 10) 0 1 = F64.Returns bz /\
      length bz = 2%nat) /\
  F64.total_bz [0; 0.1] 0.1 (F64.Float 0.5) 0.05 1 = F64.Returns [0; 0] /\
  F64.total_bz [0; 0.1] 0.1 (F64.Float (-3)) 0.05 1 = F64.Returns [0; 0] /\
  F64.total_bz [0; 0.1] 0.1 (F64.Int 1) 1e200 1 =
  F64.Raises F64.OverflowError.
Proof.
  split; [|split; [|split; [|split]]].
  - exact (total_bz_raises_only_on_overflow [0; 0.1] 0.1 (F64.Int 10)
             (-0.05) 1).
  - exact (total_bz_raises_only_on_overflow [0; 0.1] (-0.1) (F64.Int 10)
             0 1).
  - exact (total_bz_raises_only_on_overflow [0; 0.1] 0.1 (F64.Float 0.5)
             0.05 1).
  - exact (total_bz_raises_only_on_overflow [0; 0.1] 0.1 (F64.Float (-3))
             0.05 1).
  - exact (total_bz_raises_only_on_overflow [0; 0.1] 0.1 (F64.Int 1)
             1e200 1).
Defined.

(** C9 fails without its exceptions: with the radius 1e200, a finite number,
    and one turn, [total_bz] raises [OverflowError] instead of returning. *)
Lemma total_bz_raises_at_huge_radius :
  F64.is_finite 1e200 = true /\
  F64.total_bz [-0.2; 0; 0.2] 0.1 (F64.Int 1) 1e200 1.0 =
  F64.Raises F64.OverflowError.
Proof. split; vm_compute; reflexivity. Qed.


(** C5 does not hold to the last bit: with the initial parameters the
    samples at [z = 0.01] and at [z = -0.01] differ in the last bit; and so
    do, on the grid of the script, the second sample and the last but one,
    whose positions are opposite. *)
Lemma total_bz_differs_at_mirror_points :
  F64.total_bz [0.01] F64.init_spacing F64.init_turns F64.init_radius
    F64.init_current = F64.Returns [0x1.853f74c7826cap-14] /\
  F64.total_bz [-0.01] F64.init_spacing F64.init_turns F64.init_radius
    F64.init_current = F64.Returns [0x1.853f74c7826c9p-14] /\
  0x1.853f74c7826cap-14 <> 0x1.853f74c7826c9p-14 /\
  nth 1 F64.z 0 = -0.19959959959959961 /\
  nth 998 F64.z 0 = 0.19959959959959961 /\
  F64.total_bz [-0.19959959959959961; 0.19959959959959961]
    F64.init_spacing F64.init_turns F64.init_radius F64.init_current =
  F64.Returns [4.9548747391383854e-06; 4.9548747391383846e-06] /\
  4.9548747391383854e-06 <> 4.9548747391383846e-06.
Proof.
  split; [vm_compute; reflexivity|].
  split; [vm_compute; reflexivity|].
  split; [floats_differ|].
  split; [vm_compute; reflexivity|].
  split; [vm_compute; reflexivity|].
  split; [vm_compute; reflexivity|].
  floats_differ.
Qed.

(** C7 does not hold strictly of the computed samples: with the initial
    parameters, beyond max(R, s/2) = 0.05, the samples at [z = 0.0625] and
    at the next float are equal, and so are those at 1e150 and 2e150, which
    are zero. *)
Lemma total_bz_stalls_beyond_the_coils :
  (F64.init_radius <? 0.0625) = true /\
  (F64.init_spacing / 2 <? 0.0625) = true /\
  (0.0625 <? 0x1.0000000000001p-4) = true /\
  (0x1.0000000000001p-4 <? 1e150) = true /\
  (1e150 <? 2e150) = true /\
  F64.total_bz [0.0625; 0x1.0000000000001p-4; 1e150; 2e150]
    F64.init_spacing F64.init_turns F64.init_radius F64.init_current =
  F64.Returns [0.00012315887739847145; 0.00012315887739847145; 0; 0].
Proof. repeat split; vm_compute; reflexivity. Qed.

(** C8 does not hold of every positive radius: the radius 1e-200 is
    positive, its square underflows to zero, and at the centre of the loop
    the divisor is zero and the sample a NaN. *)
Lemma loop_denominator_zero_at_tiny_radius :
  (0 <? 1e-200) = true /\
  F64.float_pow_2 1e-200 = F64.Returns 0 /\
  F64.loop_denominator 1e-200 0.05 [0.05] = F64.Returns [0] /\
  F64.bz_from_loop 1 1e-200 0.05 [0.05] = F64.Returns [nan] /\
  F64.total_bz [0.05] 0.1 (F64.Int 1) 1e-200 1 = F64.Returns [nan].
Proof. repeat split; vm_compute; reflexivity. Qed.

(** Runs on binary64 that go with the theorems on [binary64_gradual]: the
    radius 2^-358 is the least power of two for which the divisor at the
    centre of a loop is not zero; with one turn the samples at [z] and [-z]
    are the same; with results in the normal range the doubled current
    doubles the samples; beyond the coils the samples do not grow. *)
Remark binary64_runs :
  F64.loop_denominator 0x1p-358 0.05 [0.05] = F64.Returns [0x1p-1073] /\
  F64.loop_denominator 0x1p-359 0.05 [0.05] = F64.Returns [0] /\
  F64.total_bz [-0.01] F64.init_spacing (F64.Int 1) F64.init_radius
    F64.init_current =
  F64.total_bz [0.01] F64.init_spacing (F64.Int 1) F64.init_radius
    F64.init_current /\
  F64.total_bz [0; 0.1] F64.init_spacing F64.init_turns F64.init_radius 1 =
  F64.Returns [8.88576587631673e-05; 4.8402664687902106e-05] /\
  F64.total_bz [0; 0.1] F64.init_spacing F64.init_turns F64.init_radius
    (2 * 1) =
  F64.Returns [2 * 8.88576587631673e-05; 2 * 4.8402664687902106e-05] /\
  F64.total_bz [1; 2] 1 F64.init_turns 0.5 1 =
  F64.Returns [4.8402664687902106e-06; 4.92170762847312e-07].
Proof. repeat split; vm_compute; reflexivity. Qed.

End Binary64.
